(** * Configuration restore: import strategies over the core store

    Shallow embedding of [packages/strapi/lib/commands/configurationRestore.js]:
    the three importers ([createReplaceImporter], [createMergeImporter],
    [createKeepImporter]), the factory [createImporter] and the command
    itself (the function assigned to [module.exports]).

    Asynchronous functions are modelled in a state-and-exception monad over
    the state of the database: every [await] is a sequencing point, and the
    only suspension points of the source are the store calls. *)

From Stdlib Require Import List String Ascii ZArith NArith Bool Lia.
From Stdlib Require Import DecimalString DecimalN.
Import ListNotations.
Open Scope string_scope.

Set Implicit Arguments.

(** ** JSON data *)

(** What [JSON.parse] produces.  Numbers are carried as integers: the code
    never computes with them, it only stores, compares and tests them for
    truthiness.  An object is the list of its own properties in property
    order, each name occurring once. *)
Unset Elimination Schemes.
Inductive value : Type :=
| JNull
| JBool (b : bool)
| JNum (n : Z)
| JStr (s : string)
| JArr (items : list value)
| JObj (fields : list (string * value)).
Set Elimination Schemes.

Module Json.

(** Induction principle that also gives the hypothesis for the values nested
    in arrays and objects. *)
Section Induction.
Variable P : value -> Prop.
Hypothesis Hnull : P JNull.
Hypothesis Hbool : forall b, P (JBool b).
Hypothesis Hnum : forall n, P (JNum n).
Hypothesis Hstr : forall s, P (JStr s).
Hypothesis Harr : forall items, Forall P items -> P (JArr items).
Hypothesis Hobj :
  forall fields, Forall (fun kv => P (snd kv)) fields -> P (JObj fields).

Fixpoint value_nested_ind (v : value) : P v :=
  match v with
  | JNull => Hnull
  | JBool b => Hbool b
  | JNum n => Hnum n
  | JStr s => Hstr s
  | JArr items =>
      Harr ((fix all (l : list value) : Forall P l :=
               match l with
               | [] => Forall_nil P
               | x :: l' => Forall_cons x (value_nested_ind x) (all l')
               end) items)
  | JObj fields =>
      Hobj ((fix all (l : list (string * value))
               : Forall (fun kv => P (snd kv)) l :=
               match l with
               | [] => Forall_nil _
               | kv :: l' =>
                   Forall_cons kv (value_nested_ind (snd kv)) (all l')
               end) fields)
  end.
End Induction.

(** Structural equality, as a boolean. *)
Fixpoint eqb (a b : value) {struct a} : bool :=
  match a, b with
  | JNull, JNull => true
  | JBool x, JBool y => Bool.eqb x y
  | JNum x, JNum y => Z.eqb x y
  | JStr x, JStr y => String.eqb x y
  | JArr xs, JArr ys =>
      (fix items (xs ys : list value) {struct xs} : bool :=
         match xs, ys with
         | [], [] => true
         | x :: xs', y :: ys' => eqb x y && items xs' ys'
         | _, _ => false
         end) xs ys
  | JObj xs, JObj ys =>
      (fix fields (xs ys : list (string * value)) {struct xs} : bool :=
         match xs, ys with
         | [], [] => true
         | (k, x) :: xs', (l, y) :: ys' =>
             String.eqb k l && eqb x y && fields xs' ys'
         | _, _ => false
         end) xs ys
  | _, _ => false
  end.

(** [undefined] is not a JSON value; a property read yields [option value],
    with [None] for [undefined]. *)
Definition eqb_opt (a b : option value) : bool :=
  match a, b with
  | None, None => true
  | Some x, Some y => eqb x y
  | _, _ => false
  end.

(** Own property lookup in an object's property list. *)
Fixpoint lookup (k : string) (fields : list (string * value)) : option value :=
  match fields with
  | [] => None
  | (l, v) :: rest => if String.eqb k l then Some v else lookup k rest
  end.

(** The name of the array index [i]: its decimal digits. *)
Definition index_name (i : nat) : string :=
  NilEmpty.string_of_uint (N.to_uint (N.of_nat i)).

(** The array index a property name stands for, if any: the name is the
    canonical decimal form of an integer below [2^32 - 1]. *)
Definition array_index (k : string) : option N :=
  match NilEmpty.uint_of_string k with
  | Some d =>
      let n := N.of_uint d in
      if String.eqb (NilEmpty.string_of_uint (N.to_uint n)) k
         && (n <? 4294967295)%N
      then Some n
      else None
  | None => None
  end.

(** Property order: the array indices first, in ascending order, then the
    other names in the order they were created.  [goes_before i l]: the
    index [i] comes before the name [l]. *)
Definition goes_before (i : N) (l : string) : bool :=
  match array_index l with
  | Some j => (i <? j)%N
  | None => true
  end.

(** A new property named by the index [i] goes before the first name that
    comes after it. *)
Fixpoint insert_index (i : N) (k : string) (v : value)
         (fields : list (string * value)) : list (string * value) :=
  match fields with
  | [] => [(k, v)]
  | (l, w) :: rest =>
      if goes_before i l then (k, v) :: fields
      else (l, w) :: insert_index i k v rest
  end.

(** A new property takes its place in property order. *)
Definition insert (k : string) (v : value) (fields : list (string * value))
  : list (string * value) :=
  match array_index k with
  | Some i => insert_index i k v fields
  | None => fields ++ [(k, v)]
  end.

(** An existing property keeps its place. *)
Fixpoint replace (k : string) (v : value) (fields : list (string * value))
  : list (string * value) :=
  match fields with
  | [] => []
  | (l, w) :: rest =>
      if String.eqb k l then (l, v) :: rest else (l, w) :: replace k v rest
  end.

(** [object[k] = v] on an object's property list. *)
Definition assign (k : string) (v : value) (fields : list (string * value))
  : list (string * value) :=
  match lookup k fields with
  | Some _ => replace k v fields
  | None => insert k v fields
  end.

(** JavaScript truthiness of a JSON value. *)
Definition truthy (v : value) : bool :=
  match v with
  | JNull => false
  | JBool b => b
  | JNum n => negb (Z.eqb n 0)
  | JStr s => negb (String.eqb s "")
  | JArr _ | JObj _ => true
  end.

Definition names (fields : list (string * value)) : list string :=
  map fst fields.

(** One step into a value: a property of an object or an item of an
    array. *)
Inductive step : Type :=
| Field (name : string)
| Index (i : nat).

(** The value one step into a value, [None] when there is none. *)
Definition child (st : step) (v : value) : option value :=
  match st, v with
  | Field name, JObj fields => lookup name fields
  | Index i, JArr items => nth_error items i
  | _, _ => None
  end.

(** The value reached by a sequence of steps. *)
Fixpoint at_steps (path : list step) (v : value) : option value :=
  match path with
  | [] => Some v
  | Field name :: rest =>
      match v with
      | JObj fields =>
          match lookup name fields with
          | Some w => at_steps rest w
          | None => None
          end
      | _ => None
      end
  | Index i :: rest =>
      match v with
      | JArr items =>
          match nth_error items i with
          | Some w => at_steps rest w
          | None => None
          end
      | _ => None
      end
  end.

Fixpoint distinct (ks : list string) : bool :=
  match ks with
  | [] => true
  | k :: rest => negb (existsb (String.eqb k) rest) && distinct rest
  end.

(** Every object in the value has distinct property names, as every parsed
    object has. *)
Fixpoint wf (v : value) : bool :=
  match v with
  | JArr items => forallb wf items
  | JObj fields =>
      distinct (names fields) && forallb (fun kv => wf (snd kv)) fields
  | _ => true
  end.

(** The names are in property order. *)
Fixpoint ordered_names (ks : list string) : bool :=
  match ks with
  | [] => true
  | k :: rest =>
      match array_index k with
      | Some i => forallb (goes_before i) rest
      | None =>
          forallb (fun l => match array_index l with
                            | Some _ => false
                            | None => true
                            end) rest
      end && ordered_names rest
  end.

(** Every object in the value lists its properties in property order, as
    every parsed object does. *)
Fixpoint ordered (v : value) : bool :=
  match v with
  | JArr items => forallb ordered items
  | JObj fields =>
      ordered_names (names fields)
      && forallb (fun kv => ordered (snd kv)) fields
  | _ => true
  end.

(** What [JSON.parse] gives: distinct names, in property order. *)
Definition canonical (v : value) : bool := wf v && ordered v.


Definition is_object (v : value) : bool :=
  match v with
  | JObj _ => true
  | _ => false
  end.

(** Both objects, or both arrays. *)
Definition same_kind (a b : value) : bool :=
  match a, b with
  | JObj _, JObj _ => true
  | JArr _, JArr _ => true
  | _, _ => false
  end.


(** The value reached by following property names through nested objects. *)
Fixpoint at_path (path : list string) (v : value) : option value :=
  match path with
  | [] => Some v
  | k :: rest =>
      match v with
      | JObj fields =>
          match lookup k fields with
          | Some w => at_path rest w
          | None => None
          end
      | _ => None
      end
  end.

End Json.

(** ** lodash's [_.merge] on JSON data

    The merge importer calls [_.merge(existingConf, conf)].  lodash is a
    third-party library; the functions below follow its [baseMerge] and
    [baseMergeDeep] on JSON data.  [baseMerge(object, source)] walks the own
    properties of [source] in property order (the indices, for an array); a
    primitive source value is assigned to [object[key]], an array or object
    goes through [baseMergeDeep], which chooses the container to merge into,
    merges recursively and assigns the result.  The container is the
    destination's own value when that is an array or an object (an array
    takes the properties of a source object on itself), the array copied from
    an array-like object for a source array, and a fresh [[]] or [{}]
    otherwise.

    The result is [None] in the runs the model does not follow:
    - the merged value is not JSON data: an array left with a hole, an
      [undefined] item or a property that is not an index, or a primitive
      destination, which lodash wraps in an object;
    - lodash throws: the array copied from an array-like object is longer
      than an array can be;
    - a source property named [__proto__], whose treatment depends on the
      version of the library;
    - the [length] of an array assigned from a source object, and a string
      spread character by character over the destination. *)
Module Lodash.

Definition MAX_SAFE_INTEGER : Z := 9007199254740991.

(** The largest length of an array, [2^32 - 1]. *)
Definition MAX_ARRAY_LENGTH : Z := 4294967295.

(** [isArrayLikeObject] on a parsed object: its [length] is a valid length
    ([isLength]: a number from 0 to [MAX_SAFE_INTEGER]).  The answer is that
    length, [None] when the object is not array-like. *)
Definition arrayLikeLength (fields : list (string * value)) : option Z :=
  match Json.lookup "length" fields with
  | Some (JNum n) =>
      if (0 <=? n)%Z && (n <=? MAX_SAFE_INTEGER)%Z then Some n else None
  | _ => None
  end.

(** [copyArray] on an array-like object of length [n]: item [i] is the
    property named [i], [None] ([undefined]) when there is none. *)
Definition copyArray (fields : list (string * value)) (n : nat)
  : list (option value) :=
  map (fun i => Json.lookup (Json.index_name i) fields) (seq 0 n).

(** Item [i] of such a copy, [None] where it is [undefined] or past the
    end. *)
Definition nth_slot (slots : list (option value)) (i : nat) : option value :=
  match nth_error slots i with
  | Some slot => slot
  | None => None
  end.

(** [array[i] = v] for [i] up to the length of the array. *)
Definition set_item (i : nat) (v : value) (items : list value) : list value :=
  firstn i items ++ v :: skipn (S i) items.

(** The items of an array, each with its index as property name. *)
Definition indexed (items : list value) : list (string * value) :=
  combine (map Json.index_name (seq 0 (List.length items))) items.

Section BaseMerge.
(** The value left at [object[key]] for a destination value [objValue]
    ([None] when the property is missing) and a source value. *)
Variable mergeValue : option value -> value -> option value.

(** [baseMerge] of an array into an array: index by index. *)
Fixpoint baseMergeItems_with (objItems srcItems : list value)
  {struct srcItems} : option (list value) :=
  match srcItems with
  | [] => Some objItems
  | srcValue :: srcRest =>
      match mergeValue (hd_error objItems) srcValue with
      | Some newValue =>
          option_map (cons newValue)
            (baseMergeItems_with (tl objItems) srcRest)
      | None => None
      end
  end.

(** [baseMerge] of an array into the copy of an array-like object, whose
    items may be [undefined]: an item left [undefined] is not JSON data. *)
Fixpoint baseMergeSlots_with (objSlots : list (option value))
         (srcItems : list value) {struct srcItems} : option (list value) :=
  match srcItems with
  | [] =>
      fold_right (fun slot acc =>
                    match slot, acc with
                    | Some item, Some items => Some (item :: items)
                    | _, _ => None
                    end) (Some []) objSlots
  | srcValue :: srcRest =>
      match mergeValue (match objSlots with
                        | slot :: _ => slot
                        | [] => None
                        end) srcValue with
      | Some newValue =>
          option_map (cons newValue)
            (baseMergeSlots_with (tl objSlots) srcRest)
      | None => None
      end
  end.

(** [baseMerge] of an object into an object: property by property, each
    result assigned before the next property is read. *)
Fixpoint baseMergeFields_with (objFields srcFields : list (string * value))
  {struct srcFields} : option (list (string * value)) :=
  match srcFields with
  | [] => Some objFields
  | (key, srcValue) :: srcRest =>
      if String.eqb key "__proto__" then None
      else
        match mergeValue (Json.lookup key objFields) srcValue with
        | Some newValue =>
            baseMergeFields_with (Json.assign key newValue objFields) srcRest
        | None => None
        end
  end.

(** [baseMerge] of an object into an array: a property named by an index
    up to the length of the array is merged into that item (the item after
    the last one is added); any other property would leave a hole or a
    named property on the array, or assign its length. *)
Fixpoint baseMergeIndexed_with (objItems : list value)
         (srcFields : list (string * value)) {struct srcFields}
  : option (list value) :=
  match srcFields with
  | [] => Some objItems
  | (key, srcValue) :: srcRest =>
      match Json.array_index key with
      | Some i =>
          if (i <=? N.of_nat (List.length objItems))%N then
            match mergeValue (nth_error objItems (N.to_nat i)) srcValue with
            | Some newValue =>
                baseMergeIndexed_with
                  (set_item (N.to_nat i) newValue objItems) srcRest
            | None => None
            end
          else None
      | None => None
      end
  end.
End BaseMerge.

Fixpoint baseMergeDeep (objValue : option value) (srcValue : value)
  {struct srcValue} : option value :=
  match srcValue with
  | JArr srcItems =>
      match objValue with
      | Some (JArr objItems) =>
          option_map JArr (baseMergeItems_with baseMergeDeep objItems srcItems)
      | Some (JObj objFields) =>
          match arrayLikeLength objFields with
          | Some n =>
              if (n <=? MAX_ARRAY_LENGTH)%Z then
                option_map JArr
                  (baseMergeSlots_with baseMergeDeep
                     (copyArray objFields (Z.to_nat n)) srcItems)
              else None
          | None =>
              option_map JArr (baseMergeItems_with baseMergeDeep [] srcItems)
          end
      | _ => option_map JArr (baseMergeItems_with baseMergeDeep [] srcItems)
      end
  | JObj srcFields =>
      match objValue with
      | Some (JObj objFields) =>
          option_map JObj
            (baseMergeFields_with baseMergeDeep objFields srcFields)
      | Some (JArr objItems) =>
          option_map JArr
            (baseMergeIndexed_with baseMergeDeep objItems srcFields)
      | _ => option_map JObj (baseMergeFields_with baseMergeDeep [] srcFields)
      end
  | _ => Some srcValue
  end.

Definition baseMergeItems := baseMergeItems_with baseMergeDeep.
Definition baseMergeSlots := baseMergeSlots_with baseMergeDeep.
Definition baseMergeFields := baseMergeFields_with baseMergeDeep.
Definition baseMergeIndexed := baseMergeIndexed_with baseMergeDeep.

(** The destination's value plays no part in what [baseMergeDeep] leaves:
    the source value is a primitive, or it is merged into a fresh, empty
    container. *)
Definition replaces (objValue : option value) (srcValue : value) : bool :=
  match srcValue, objValue with
  | JArr _, Some (JArr _) => false
  | JArr _, Some (JObj objFields) =>
      match arrayLikeLength objFields with
      | Some n => (n =? 0)%Z
      | None => true
      end
  | JObj _, Some (JArr _) => false
  | JObj _, Some (JObj _) => false
  | _, _ => true
  end.

(** [_.merge(object, source)] with one source.  A falsy source is skipped; a
    number or [true] has no own enumerable property; an array is merged
    under the names of its indices. *)
Definition merge (object source : value) : option value :=
  match object, source with
  | JObj objFields, JObj srcFields =>
      option_map JObj (baseMergeFields objFields srcFields)
  | JObj objFields, JArr srcItems =>
      option_map JObj (baseMergeFields objFields (indexed srcItems))
  | JArr objItems, JArr srcItems =>
      option_map JArr (baseMergeItems objItems srcItems)
  | JArr objItems, JObj srcFields =>
      option_map JArr (baseMergeIndexed objItems srcFields)
  | (JObj _ | JArr _), (JNull | JBool _ | JNum _) => Some object
  | (JObj _ | JArr _), JStr s => if String.eqb s "" then Some object else None
  | _, _ => None
  end.

End Lodash.

(** ** Asynchronous computations over the database *)

(** What the code can throw: [new Error(message)] in this file, the
    [TypeError] of a property read on [null], and the rejection of a store
    call, tagged with the name of the operation. *)
Inductive exn : Type :=
| Error (message : string)
| TypeError
| StoreError (operation : string).

(** How a computation ends.  [Unmodelled] marks a run the model of
    [_.merge] does not follow (see [Lodash]): nothing is stated about such a
    run. *)
Inductive outcome (A : Type) : Type :=
| Returned (a : A)
| Thrown (e : exn)
| Unmodelled.
Arguments Thrown {A} e.
Arguments Unmodelled {A}.

(** An [async] function over a database in state [S]. *)
Definition Async (S A : Type) : Type := S -> outcome A * S.

Definition ret {S A} (a : A) : Async S A := fun s => (Returned a, s).
Definition throw {S A} (e : exn) : Async S A := fun s => (Thrown e, s).
Definition unmodelled {S A} : Async S A := fun s => (Unmodelled, s).

Definition bind {S A B} (m : Async S A) (f : A -> Async S B) : Async S B :=
  fun s =>
    match m s with
    | (Returned a, s') => f a s'
    | (Thrown e, s') => (Thrown e, s')
    | (Unmodelled, s') => (Unmodelled, s')
    end.

Notation "x <- m ;; k" := (bind m (fun x => k))
  (at level 61, m at next level, right associativity).
Notation "m ;;; k" := (bind m (fun _ => k))
  (at level 61, right associativity).

(** A synchronous step that may throw. *)
Definition lift {S A} (r : exn + A) : Async S A :=
  match r with
  | inl e => throw e
  | inr a => ret a
  end.

(** [for (const x of xs) { await body(x); }] *)
Fixpoint for_of {S A} (xs : list A) (body : A -> Async S unit) : Async S unit :=
  match xs with
  | [] => ret tt
  | x :: rest => body x ;;; for_of rest body
  end.

(** ** Property reads *)

(** The filter [{ key: conf.key }]: the value read, [None] for [undefined]. *)
Definition filter : Type := option value.

(** [conf.key].  Reading a property of [null] throws; a number, a boolean, a
    string and an array have no property named [key]. *)
Definition get_key (conf : value) : exn + filter :=
  match conf with
  | JNull => inl TypeError
  | JObj fields => inr (Json.lookup "key" fields)
  | _ => inr None
  end.

(** ** The importers *)

Section Importers.
Variable S : Type.

(** [db.query('core_store')]: the four operations the importers use. *)
Record Query : Type := {
  count : filter -> Async S Z;
  find : filter -> Async S (option value);
  create : value -> Async S unit;
  update : filter -> value -> Async S unit
}.

Record Importer : Type := { import : value -> Async S unit }.

Variable db : Query.

(** Replace importer.  Will replace the keys that already exist and create
    the new ones. *)
Definition createReplaceImporter : Importer :=
  {| import := fun conf =>
       key <- lift (get_key conf) ;;
       matching <- db.(count) key ;;
       if (0 <? matching)%Z then
         key' <- lift (get_key conf) ;;
         db.(update) key' conf
       else
         db.(create) conf |}.

(** Merge importer.  Will merge the keys that already exist with their new
    value and create the new ones.  [if (existingConf)] is the truthiness
    of what [find] gave, [undefined] and [null] being [None]. *)
Definition createMergeImporter : Importer :=
  {| import := fun conf =>
       key <- lift (get_key conf) ;;
       existingConf <- db.(find) key ;;
       match existingConf with
       | Some existing =>
           if Json.truthy existing then
             key' <- lift (get_key conf) ;;
             match Lodash.merge existing conf with
             | Some merged => db.(update) key' merged
             | None => unmodelled
             end
           else db.(create) conf
       | None => db.(create) conf
       end |}.

(** Keep importer.  Will keep the keys that already exist without changing
    them and create the new ones. *)
Definition createKeepImporter : Importer :=
  {| import := fun conf =>
       key <- lift (get_key conf) ;;
       matching <- db.(count) key ;;
       if (0 <? matching)%Z then ret tt
       else db.(create) conf |}.

(** The double quote character, as a string. *)
Definition dquote : string := String "034"%char EmptyString.

(** The [switch] on the strategy name. *)
Definition createImporter (strategy : string) : exn + Importer :=
  if String.eqb strategy "replace" then inr createReplaceImporter
  else if String.eqb strategy "merge" then inr createMergeImporter
  else if String.eqb strategy "keep" then inr createKeepImporter
  else
    inl (Error ("No importer available for strategy "
                  ++ dquote ++ strategy ++ dquote)).

(** ** The command *)

(** [JSON.parse]: the parsed value, or the message of the [SyntaxError]. *)
Variable JSON_parse : string -> string + value.

Definition decimal (n : nat) : string :=
  NilEmpty.string_of_uint (Nat.to_uint n).

(** The exported command.  [input] is the text read from the file or from
    the standard input, [db] the database of the loaded application;
    [strategy] is [None] when the caller gives none.  The result is the
    line printed before the process exits.  Reading the input and loading
    the application come first in the source and are not part of the
    embedding: the state the command starts from is the one they leave. *)
Definition configurationRestore (input : string) (strategy : option string)
  : Async S string :=
  let strategy := match strategy with Some s => s | None => "replace" end in
  match JSON_parse input with
  | inl message =>
      throw (Error ("Invalid input data: " ++ message
                      ++ ". Expected a valid JSON array."))
  | inr dataToImport =>
      match dataToImport with
      | JArr configs =>
          importer <- lift (createImporter strategy) ;;
          for_of configs importer.(import) ;;;
          ret ("Successfully imported " ++ decimal (List.length configs)
                 ++ " configuration entries using the "
                 ++ dquote ++ strategy ++ dquote ++ " strategy.")
      | _ => throw (Error "Invalid input data. Expected a valid JSON array.")
      end
  end.
End Importers.

(** ** The core store *)

Module CoreStore.
Local Open Scope list_scope.

(** A call made on [db.query('core_store')]. *)
Inductive call : Type :=
| Count (key : filter)
| Find (key : filter)
| Create (record : value)
| Update (key : filter) (record : value).

Definition operation (c : call) : string :=
  match c with
  | Count _ => "count"
  | Find _ => "find"
  | Create _ => "create"
  | Update _ _ => "update"
  end.

(** Modelled from the spec: the persistent collection behind
    [db.query('core_store')], whose code lies outside the command's file.
    It holds the entries in creation order.  [calls] records every call
    made, in order.  [faults] says which of the coming calls fail, one flag
    per call: any store call may fail, and does so atomically, leaving the
    entries as they were. *)
Record state : Type := {
  entries : list value;
  calls : list call;
  faults : list bool
}.

(** The [key] field an entry is addressed by. *)
Definition entry_key (entry : value) : filter :=
  match entry with
  | JObj fields => Json.lookup "key" fields
  | _ => None
  end.

(** Modelled from the spec: an entry matches the filter [{ key: k }] when
    its [key] field is [k]. *)
Definition matches (k : filter) (entry : value) : bool :=
  Json.eqb_opt (entry_key entry) k.

Definition matching (k : filter) (es : list value) : list value :=
  List.filter (matches k) es.

Definition others (k : filter) (es : list value) : list value :=
  List.filter (fun e => negb (matches k e)) es.

(** Modelled from the spec: [update] gives the entry addressed by the filter
    a new payload, whole. *)
Fixpoint overwrite (k : filter) (record : value) (es : list value)
  : list value :=
  match es with
  | [] => []
  | e :: rest =>
      if matches k e then record :: rest else e :: overwrite k record rest
  end.

(** Modelled from the spec: one store call, logged, then failed or carried
    out on the entries. *)
Definition perform {A} (c : call) (run : list value -> A * list value)
  : Async state A :=
  fun s =>
    match faults s with
    | true :: later =>
        (Thrown (StoreError (operation c)),
         {| entries := entries s; calls := calls s ++ [c]; faults := later |})
    | _ =>
        let (a, es) := run (entries s) in
        (Returned a,
         {| entries := es; calls := calls s ++ [c];
            faults := tl (faults s) |})
    end.

(** Modelled from the spec: [count(filter) -> integer],
    [find(filter) -> record or absent], [create(record) -> void] and
    [update(filter, record) -> void], each an atomic operation on one
    key. *)
Definition query : Query state := {|
  count := fun k =>
    perform (Count k)
    (fun es => (Z.of_nat (List.length (matching k es)), es));
  find := fun k =>
    perform (Find k) (fun es => (List.find (matches k) es, es));
  create := fun record =>
    perform (Create record) (fun es => (tt, es ++ [record]));
  update := fun k record =>
    perform (Update k record) (fun es => (tt, overwrite k record es))
|}.

(** No coming call fails. *)
Definition healthy (s : state) : bool := forallb negb (faults s).

(** The store's invariant: at most one entry per key. *)
Definition unique (k : filter) (s : state) : Prop :=
  (List.length (matching k (entries s)) <= 1)%nat.

Definition empty : state := {| entries := []; calls := []; faults := [] |}.

End CoreStore.

Import CoreStore.

(** ** Records used in the examples *)

Module Examples.

(** Existing [{key:"a", nested:{x:1,y:2}, other:"keep"}], incoming
    [{key:"a", nested:{y:99}}] and the expected merge. *)
Definition nested_existing : value :=
  JObj [("key", JStr "a");
        ("nested", JObj [("x", JNum 1); ("y", JNum 2)]);
        ("other", JStr "keep")].
Definition nested_incoming : value :=
  JObj [("key", JStr "a"); ("nested", JObj [("y", JNum 99)])].
Definition nested_merged : value :=
  JObj [("key", JStr "a");
        ("nested", JObj [("x", JNum 1); ("y", JNum 99)]);
        ("other", JStr "keep")].

(** Existing [{key:"a", value:1}] and incoming
    [{key:"a", value:{nested:true}}]. *)
Definition scalar_existing : value :=
  JObj [("key", JStr "a"); ("value", JNum 1)].
Definition mapping_incoming : value :=
  JObj [("key", JStr "a"); ("value", JObj [("nested", JBool true)])].

(** Existing [{key:"a", list:[1,2,3]}] and incoming [{key:"a", list:[9]}]. *)
Definition list_existing : value :=
  JObj [("key", JStr "a"); ("list", JArr [JNum 1; JNum 2; JNum 3])].
Definition list_incoming : value :=
  JObj [("key", JStr "a"); ("list", JArr [JNum 9])].

(** Existing [{key:"a", list:{0:"a", 1:"b", length:2}}] with incoming
    [{key:"a", list:["x"]}]: the mapping is read as the array
    [["a","b"]]. *)
Definition arraylike_existing : value :=
  JObj [("key", JStr "a");
        ("list", JObj [("0", JStr "a"); ("1", JStr "b");
                       ("length", JNum 2)])].
Definition arraylike_incoming : value :=
  JObj [("key", JStr "a"); ("list", JArr [JStr "x"])].
Definition arraylike_merged : value :=
  JObj [("key", JStr "a"); ("list", JArr [JStr "x"; JStr "b"])].

(** Existing [{key:"a", list:{length:0}}] with the same incoming record. *)
Definition empty_arraylike_existing : value :=
  JObj [("key", JStr "a"); ("list", JObj [("length", JNum 0)])].

(** Existing [{key:"a", list:[1,2]}] with incoming
    [{key:"a", list:{1:{on:true}}}]: the mapping is merged into the
    array. *)
Definition array_existing : value :=
  JObj [("key", JStr "a"); ("list", JArr [JNum 1; JNum 2])].
Definition index_mapping_incoming : value :=
  JObj [("key", JStr "a"); ("list", JObj [("1", JObj [("on", JBool true)])])].
Definition index_mapping_merged : value :=
  JObj [("key", JStr "a");
        ("list", JArr [JNum 1; JObj [("on", JBool true)]])].


(** Existing [{key:"a", b:1}] with incoming [{1:2, key:"a"}]: the new
    property is named by an index, and is listed first. *)
Definition named_existing : value :=
  JObj [("key", JStr "a"); ("b", JNum 1)].
Definition index_incoming : value :=
  JObj [("1", JNum 2); ("key", JStr "a")].
Definition index_merged : value :=
  JObj [("1", JNum 2); ("key", JStr "a"); ("b", JNum 1)].

(** The array [[{key:"a",v:1},{key:"a",v:2}]]. *)
Definition dup_first : value := JObj [("key", JStr "a"); ("v", JNum 1)].
Definition dup_second : value := JObj [("key", JStr "a"); ("v", JNum 2)].

Definition key_a : filter := Some (JStr "a").

(** The line the command prints for [n] records. *)
Definition summary (n : nat) (strategy : string) : string :=
  "Successfully imported " ++ decimal n
    ++ " configuration entries using the "
    ++ dquote ++ strategy ++ dquote ++ " strategy.".

Definition store_of (es : list value) : state :=
  {| entries := es; calls := []; faults := [] |}.

End Examples.

(** ** Reading the input *)

Module Input.

(** What the standard input delivers to the listeners [readStdin] registers.
    A [readable] event comes with what the successive calls of
    [stdin.read()] give during that event, [None] for [null]. *)
Inductive stdin_event : Type :=
| Readable (reads : list (option string))
| End
| StreamError (e : exn).

Record Stdin : Type := {
  isTTY : bool;
  events : list stdin_event
}.

(** The state a promise ends in; [Pending] when nothing ever settles it. *)
Inductive promise (A : Type) : Type :=
| Resolved (a : A)
| Rejected (e : exn)
| Pending.
Arguments Rejected {A} e.
Arguments Pending {A}.

(** [while ((chunk = stdin.read())) { result += chunk; }]: the loop ends at
    the first falsy chunk, [null] or the empty string. *)
Fixpoint drain (reads : list (option string)) (result : string) : string :=
  match reads with
  | Some chunk :: later =>
      if String.eqb chunk "" then result else drain later (result ++ chunk)
  | _ => result
  end.

(** The three listeners over the events, in order: [readable] appends to
    [result], [end] resolves with it, [error] rejects.  A promise is settled
    once, by the first of the two. *)
Fixpoint listen (evs : list stdin_event) (result : string) : promise string :=
  match evs with
  | [] => Pending
  | Readable reads :: later => listen later (drain reads result)
  | End :: _ => Resolved result
  | StreamError e :: _ => Rejected e
  end.

Definition readStdin (stdin : Stdin) : promise string :=
  if isTTY stdin then Resolved "" else listen (events stdin) "".

Section Entry.
Variable S : Type.
Variable db : Query S.
Variable JSON_parse : string -> string + value.

(** [fs.readFileSync]: the text of the file, or what it throws. *)
Variable readFileSync : string -> exn + string.

(** [strapi().load()], on the database. *)
Variable load : Async S unit.

(** The exported command from its first line: the input is read from the
    file when a path is given (a truthy one), from the standard input
    otherwise; then the application is loaded and the text restored.
    [None] when the input never comes. *)
Definition module_exports
           (stdin : Stdin) (file : option string) (strategy : option string)
  : option (Async S string) :=
  let fromFile filePath :=
    match readFileSync filePath with
    | inl e => Rejected e
    | inr text => Resolved text
    end in
  let input :=
    match file with
    | Some filePath =>
        if String.eqb filePath "" then readStdin stdin else fromFile filePath
    | None => readStdin stdin
    end in
  match input with
  | Resolved text =>
      Some (load ;;; configurationRestore db JSON_parse text strategy)
  | Rejected e => Some (throw e)
  | Pending => None
  end.
End Entry.

End Input.

(** ** Properties of stores and call logs *)

Module Batch.

(** Every entry is a mapping. *)
Definition records (es : list value) : bool := forallb Json.is_object es.

(** Every incoming record is a mapping whose objects have distinct names. *)
Definition parsed_records (configs : list value) : bool :=
  forallb (fun c => Json.is_object c && Json.wf c) configs.

(** At most one entry for every key. *)
Definition one_per_key (s : state) : Prop := forall k, unique k s.

Definition is_update (c : call) : bool :=
  match c with
  | Update _ _ => true
  | _ => false
  end.

(** The texts a [readable] event adds, and those of a run of events. *)
Definition chunks_of (ev : Input.stdin_event) : string :=
  match ev with
  | Input.Readable reads => Input.drain reads ""
  | _ => ""
  end.

Definition text_of (evs : list Input.stdin_event) : string :=
  String.concat "" (map chunks_of evs).

Definition is_readable (ev : Input.stdin_event) : bool :=
  match ev with
  | Input.Readable _ => true
  | _ => false
  end.

End Batch.

(** ** Facts about JSON data *)

Module JsonFacts.
Import Json.

Lemma eqb_refl (v : value) : eqb v v = true.
Proof.
  induction v using value_nested_ind; simpl;
    auto using Bool.eqb_reflx, Z.eqb_refl, String.eqb_refl.
  - induction H as [|x l Hx _ IH]; [reflexivity|].
    now rewrite Hx, IH.
  - induction H as [|[k x] l Hx _ IH]; [reflexivity|].
    simpl in Hx. now rewrite String.eqb_refl, Hx, IH.
Qed.

Lemma eqb_true_eq (a : value) : forall b, eqb a b = true -> a = b.
Proof.
  induction a using value_nested_ind; intros [] E; simpl in E;
    try discriminate; try reflexivity.
  - f_equal. now apply Bool.eqb_prop.
  - f_equal. now apply Z.eqb_eq.
  - f_equal. now apply String.eqb_eq.
  - f_equal. revert items0 E.
    induction H as [|x l Hx _ IH]; intros [|y ys] E;
      try discriminate; [reflexivity|].
    apply andb_true_iff in E as [E1 E2].
    f_equal; [now apply Hx | now apply IH].
  - f_equal. revert fields0 E.
    induction H as [|[k x] l Hx _ IH]; intros [|[k' y] ys] E;
      try discriminate; [reflexivity|].
    apply andb_true_iff in E as [E12 E3].
    apply andb_true_iff in E12 as [E1 E2].
    apply String.eqb_eq in E1. simpl in Hx. apply Hx in E2.
    subst. f_equal. now apply IH.
Qed.

Lemma eqb_eq (a b : value) : eqb a b = true <-> a = b.
Proof.
  split; [apply eqb_true_eq | intros ->; apply eqb_refl].
Qed.

Lemma eqb_opt_eq (a b : option value) : eqb_opt a b = true <-> a = b.
Proof.
  destruct a, b; simpl; try (split; congruence).
  rewrite eqb_eq. split; congruence.
Qed.

Lemma eqb_opt_refl (a : option value) : eqb_opt a a = true.
Proof. now apply eqb_opt_eq. Qed.

End JsonFacts.

(** ** Facts about [_.merge] *)

Module LodashFacts.
Import Json Lodash.
Local Open Scope list_scope.

Lemma lookup_app_absent (k : string) fields fields' :
  lookup k fields = None -> lookup k (fields ++ fields') = lookup k fields'.
Proof.
  induction fields as [|[l w] rest IH]; simpl; [reflexivity|].
  destruct (String.eqb k l); [discriminate | exact IH].
Qed.

Lemma lookup_not_named (k : string) fields :
  existsb (String.eqb k) (names fields) = false -> lookup k fields = None.
Proof.
  induction fields as [|[l w] rest IH]; simpl; [reflexivity|].
  destruct (String.eqb k l); simpl; [discriminate | exact IH].
Qed.

Lemma lookup_replace_same (k : string) (v : value) fields :
  lookup k fields <> None -> lookup k (replace k v fields) = Some v.
Proof.
  induction fields as [|[l w] rest IH]; simpl; [congruence|].
  destruct (String.eqb k l) eqn:E; simpl; rewrite E; [reflexivity | exact IH].
Qed.

Lemma lookup_replace_other (f k : string) (v : value) fields :
  String.eqb f k = false ->
  lookup f (replace k v fields) = lookup f fields.
Proof.
  intros Hfk. induction fields as [|[l w] rest IH]; simpl; [reflexivity|].
  destruct (String.eqb k l) eqn:E; simpl.
  - apply String.eqb_eq in E. subst l. now rewrite Hfk.
  - now rewrite IH.
Qed.

Lemma lookup_insert_index_other (f : string) (i : N) (k : string)
      (v : value) fields :
  String.eqb f k = false ->
  lookup f (insert_index i k v fields) = lookup f fields.
Proof.
  intros Hfk. induction fields as [|[l w] rest IH]; simpl.
  - now rewrite Hfk.
  - destruct (goes_before i l); simpl.
    + now rewrite Hfk.
    + now rewrite IH.
Qed.

Lemma lookup_insert_index_same (i : N) (k : string) (v : value) fields :
  lookup k fields = None ->
  lookup k (insert_index i k v fields) = Some v.
Proof.
  induction fields as [|[l w] rest IH]; simpl.
  - now rewrite String.eqb_refl.
  - destruct (String.eqb k l) eqn:E; [discriminate|]. intros Hk.
    destruct (goes_before i l); simpl.
    + now rewrite String.eqb_refl.
    + rewrite E. now apply IH.
Qed.

Lemma lookup_insert_same (k : string) (v : value) fields :
  lookup k fields = None -> lookup k (insert k v fields) = Some v.
Proof.
  intros Hk. unfold insert. destruct (array_index k) as [i|].
  - now apply lookup_insert_index_same.
  - rewrite lookup_app_absent by exact Hk. simpl.
    now rewrite String.eqb_refl.
Qed.

Lemma lookup_insert_other (f k : string) (v : value) fields :
  String.eqb f k = false ->
  lookup f (insert k v fields) = lookup f fields.
Proof.
  intros Hfk. unfold insert. destruct (array_index k) as [i|].
  - now apply lookup_insert_index_other.
  - induction fields as [|[l w] rest IH]; simpl.
    + now rewrite Hfk.
    + destruct (String.eqb f l); [reflexivity | exact IH].
Qed.

Lemma lookup_assign_same (k : string) (v : value) fields :
  lookup k (assign k v fields) = Some v.
Proof.
  unfold assign. destruct (lookup k fields) as [w|] eqn:E.
  - apply lookup_replace_same. congruence.
  - now apply lookup_insert_same.
Qed.

Lemma lookup_assign_other (f k : string) (v : value) fields :
  String.eqb f k = false ->
  lookup f (assign k v fields) = lookup f fields.
Proof.
  intros Hfk. unfold assign. destruct (lookup k fields).
  - now apply lookup_replace_other.
  - now apply lookup_insert_other.
Qed.

(** A property name that is an array index is the name of that index. *)
Lemma array_index_name (k : string) (i : N) :
  array_index k = Some i -> k = index_name (N.to_nat i).
Proof.
  unfold array_index, index_name.
  destruct (NilEmpty.uint_of_string k) as [d|]; [|discriminate].
  cbn zeta.
  destruct (String.eqb_spec
              (NilEmpty.string_of_uint (N.to_uint (N.of_uint d))) k)
    as [E | _]; [|discriminate].
  destruct (N.of_uint d <? 4294967295)%N; [|discriminate].
  simpl. intros [= <-]. now rewrite N2Nat.id.
Qed.

Lemma array_index_inj (k l : string) (i : N) :
  array_index k = Some i -> array_index l = Some i -> k = l.
Proof.
  intros Hk Hl. apply array_index_name in Hk, Hl. congruence.
Qed.

Lemma ordered_names_app_l (ks ls : list string) :
  ordered_names (ks ++ ls) = true -> ordered_names ks = true.
Proof.
  induction ks as [|k ks IH]; [reflexivity|].
  simpl. intros H. apply andb_true_iff in H as [Hk Hr].
  rewrite (IH Hr), andb_true_r.
  destruct (array_index k); rewrite forallb_app in Hk;
    now apply andb_true_iff in Hk as [Hk _].
Qed.

(** In property order, a new last property is inserted last. *)
Lemma insert_last (k : string) (v : value) fields :
  ordered_names (names fields ++ [k]) = true ->
  insert k v fields = fields ++ [(k, v)].
Proof.
  unfold insert. destruct (array_index k) as [i|] eqn:Ek; [|reflexivity].
  induction fields as [|[l w] rest IH]; [reflexivity|].
  simpl. intros H. apply andb_true_iff in H as [Hl Hr].
  assert (Hb : goes_before i l = false).
  { unfold goes_before. destruct (array_index l) as [j|].
    - rewrite forallb_app in Hl. apply andb_true_iff in Hl as [_ Hl].
      simpl in Hl. unfold goes_before in Hl. rewrite Ek in Hl.
      rewrite andb_true_r in Hl. apply N.ltb_lt in Hl.
      apply N.ltb_ge. lia.
    - rewrite forallb_app in Hl. apply andb_true_iff in Hl as [_ Hl].
      simpl in Hl. rewrite Ek in Hl. discriminate. }
  rewrite Hb. now rewrite IH.
Qed.

Lemma assign_last (k : string) (v : value) fields :
  lookup k fields = None ->
  ordered_names (names fields ++ [k]) = true ->
  assign k v fields = fields ++ [(k, v)].
Proof.
  intros Hk Ho. unfold assign. rewrite Hk. now apply insert_last.
Qed.

Lemma replace_same (k : string) (v : value) fields :
  lookup k fields = Some v -> replace k v fields = fields.
Proof.
  induction fields as [|[l w] rest IH]; simpl; [discriminate|].
  destruct (String.eqb k l) eqn:E.
  - now intros [= ->].
  - intros H. now rewrite IH.
Qed.

Lemma assign_same (k : string) (v : value) fields :
  lookup k fields = Some v -> assign k v fields = fields.
Proof.
  intros Hk. unfold assign. rewrite Hk. now apply replace_same.
Qed.

Lemma lookup_assign_present (f k : string) (v : value) fields :
  lookup f fields <> None -> lookup f (assign k v fields) <> None.
Proof.
  destruct (String.eqb f k) eqn:E.
  - apply String.eqb_eq in E. subst f. rewrite lookup_assign_same.
    discriminate.
  - now rewrite lookup_assign_other.
Qed.

(** The equations of [baseMerge]. *)
Lemma baseMergeFields_cons (objFields : list (string * value))
      (key : string) (srcValue : value) srcRest :
  baseMergeFields objFields ((key, srcValue) :: srcRest) =
    if String.eqb key "__proto__" then None
    else
      match baseMergeDeep (lookup key objFields) srcValue with
      | Some newValue => baseMergeFields (assign key newValue objFields) srcRest
      | None => None
      end.
Proof. reflexivity. Qed.

Lemma baseMergeItems_cons (objItems : list value)
      (srcValue : value) srcRest :
  baseMergeItems objItems (srcValue :: srcRest) =
    match baseMergeDeep (hd_error objItems) srcValue with
    | Some newValue =>
        option_map (cons newValue) (baseMergeItems (tl objItems) srcRest)
    | None => None
    end.
Proof. reflexivity. Qed.

Lemma baseMergeSlots_cons (objSlots : list (option value))
      (srcValue : value) srcRest :
  baseMergeSlots objSlots (srcValue :: srcRest) =
    match baseMergeDeep (match objSlots with
                         | slot :: _ => slot
                         | [] => None
                         end) srcValue with
    | Some newValue =>
        option_map (cons newValue) (baseMergeSlots (tl objSlots) srcRest)
    | None => None
    end.
Proof. reflexivity. Qed.

Lemma baseMergeIndexed_cons (objItems : list value)
      (key : string) (srcValue : value) srcRest :
  baseMergeIndexed objItems ((key, srcValue) :: srcRest) =
    match array_index key with
    | Some i =>
        if (i <=? N.of_nat (List.length objItems))%N then
          match baseMergeDeep (nth_error objItems (N.to_nat i)) srcValue with
          | Some newValue =>
              baseMergeIndexed (set_item (N.to_nat i) newValue objItems)
                srcRest
          | None => None
          end
        else None
    | None => None
    end.
Proof. reflexivity. Qed.

(** The four cases of [baseMergeDeep] on containers. *)
Lemma baseMergeDeep_objects (objFields srcFields : list (string * value)) :
  baseMergeDeep (Some (JObj objFields)) (JObj srcFields)
  = option_map JObj (baseMergeFields objFields srcFields).
Proof. reflexivity. Qed.

Lemma baseMergeDeep_arrays (objItems srcItems : list value) :
  baseMergeDeep (Some (JArr objItems)) (JArr srcItems)
  = option_map JArr (baseMergeItems objItems srcItems).
Proof. reflexivity. Qed.

Lemma baseMergeDeep_object_array (objItems : list value)
      (srcFields : list (string * value)) :
  baseMergeDeep (Some (JArr objItems)) (JObj srcFields)
  = option_map JArr (baseMergeIndexed objItems srcFields).
Proof. reflexivity. Qed.

Lemma baseMergeDeep_array_like (objFields : list (string * value))
      (srcItems : list value) (n : Z) :
  arrayLikeLength objFields = Some n ->
  (n <= MAX_ARRAY_LENGTH)%Z ->
  baseMergeDeep (Some (JObj objFields)) (JArr srcItems)
  = option_map JArr
      (baseMergeSlots (copyArray objFields (Z.to_nat n)) srcItems).
Proof.
  intros Hn Hle. simpl. rewrite Hn.
  apply Z.leb_le in Hle. now rewrite Hle.
Qed.

(** A property the source does not mention keeps its value. *)
Lemma baseMergeFields_absent (f : string) srcFields :
  lookup f srcFields = None ->
  forall objFields merged,
    baseMergeFields objFields srcFields = Some merged ->
    lookup f merged = lookup f objFields.
Proof.
  induction srcFields as [|[k v] rest IH]; intros Hf objFields merged.
  - simpl. now intros [= ->].
  - rewrite baseMergeFields_cons. simpl in Hf.
    destruct (String.eqb f k) eqn:Efk; [discriminate|].
    destruct (String.eqb k "__proto__"); [discriminate|].
    destruct (baseMergeDeep (lookup k objFields) v) as [nv|]; [|discriminate].
    intros Hm. rewrite (IH Hf _ _ Hm). now apply lookup_assign_other.
Qed.

(** A property the source mentions holds the merge of the destination's
    value with the source's. *)
Lemma baseMergeFields_present (f : string) (v : value) srcFields :
  distinct (names srcFields) = true ->
  lookup f srcFields = Some v ->
  forall objFields merged,
    baseMergeFields objFields srcFields = Some merged ->
    baseMergeDeep (lookup f objFields) v = lookup f merged
    /\ lookup f merged <> None.
Proof.
  induction srcFields as [|[k w] rest IH]; intros Hd Hf objFields merged;
    [discriminate|].
  rewrite baseMergeFields_cons. simpl in Hf, Hd.
  apply andb_true_iff in Hd as [Hk Hd]. apply negb_true_iff in Hk.
  destruct (String.eqb k "__proto__"); [discriminate|].
  destruct (baseMergeDeep (lookup k objFields) w) as [nv|] eqn:Ew;
    [|discriminate].
  intros Hm. destruct (String.eqb f k) eqn:Efk.
  - apply String.eqb_eq in Efk. subst k. injection Hf as ->.
    rewrite (baseMergeFields_absent f rest (lookup_not_named _ _ Hk) _ Hm).
    rewrite lookup_assign_same. now rewrite Ew.
  - destruct (IH Hd Hf _ _ Hm) as [H1 H2]. split; [|exact H2].
    rewrite <- H1. now rewrite lookup_assign_other.
Qed.

(** Item by item: an item the source has is the merge of the two items, an
    item past the end of the source is the destination's. *)
Lemma baseMergeItems_nth (srcItems : list value) :
  forall objItems merged,
    baseMergeItems objItems srcItems = Some merged ->
    forall i,
      match nth_error srcItems i with
      | Some v =>
          baseMergeDeep (nth_error objItems i) v = nth_error merged i
          /\ nth_error merged i <> None
      | None => nth_error merged i = nth_error objItems i
      end.
Proof.
  induction srcItems as [|x xs IH]; intros objItems merged.
  - simpl. intros [= <-] i. now destruct i.
  - rewrite baseMergeItems_cons.
    destruct (baseMergeDeep (hd_error objItems) x) as [nx|] eqn:Ex;
      [|discriminate].
    destruct (baseMergeItems (tl objItems) xs) as [l|] eqn:El;
      [|discriminate].
    simpl. intros [= <-] [|i]; simpl.
    + destruct objItems; simpl in *; rewrite Ex; split; congruence.
    + specialize (IH _ _ El i).
      destruct objItems as [|o os]; simpl in *.
      * now destruct i.
      * exact IH.
Qed.

Lemma baseMergeItems_length (srcItems : list value) :
  forall objItems merged,
    baseMergeItems objItems srcItems = Some merged ->
    List.length merged
    = Nat.max (List.length objItems) (List.length srcItems).
Proof.
  induction srcItems as [|x xs IH]; intros objItems merged.
  - simpl. intros [= <-]. lia.
  - rewrite baseMergeItems_cons.
    destruct (baseMergeDeep (hd_error objItems) x) as [nx|]; [|discriminate].
    destruct (baseMergeItems (tl objItems) xs) as [l|] eqn:E; [|discriminate].
    simpl. intros [= <-]. specialize (IH _ _ E).
    destruct objItems as [|o os]; simpl in *; lia.
Qed.

(** Merging into the copy of an object with no item is merging into [[]]. *)
Lemma baseMergeSlots_nil (srcItems : list value) :
  baseMergeSlots [] srcItems = baseMergeItems [] srcItems.
Proof.
  induction srcItems as [|x xs IH]; [reflexivity|].
  rewrite baseMergeSlots_cons, baseMergeItems_cons. simpl.
  destruct (baseMergeDeep None x); [|reflexivity]. now rewrite IH.
Qed.

(** Merging into a fresh container copies the source. *)
Lemma baseMergeDeep_fresh (v : value) :
  wf v = true ->
  ordered v = true ->
  forall r, baseMergeDeep None v = Some r -> r = v.
Proof.
  induction v using value_nested_ind; intros Hw Ho r; simpl;
    try (now intros [= <-]).
  - (* an array, item by item into [[]] *)
    fold (baseMergeItems [] items).
    assert (Hi : forall l, baseMergeItems [] items = Some l -> l = items).
    { simpl in Hw, Ho. clear r.
      induction H as [|x xs Hx _ IH]; intros l.
      - now intros [= <-].
      - rewrite baseMergeItems_cons. simpl in Hw, Ho |- *.
        apply andb_true_iff in Hw as [Hwx Hws].
        apply andb_true_iff in Ho as [Hox Hos].
        destruct (baseMergeDeep None x) as [nx|] eqn:Ex; [|discriminate].
        destruct (baseMergeItems [] xs) as [l'|]; [|discriminate].
        simpl. intros [= <-]. f_equal; [now apply Hx | now apply IH]. }
    destruct (baseMergeItems [] items) as [l|]; [|discriminate].
    simpl. intros [= <-]. f_equal. now apply Hi.
  - (* an object, property by property into [{}] *)
    fold (baseMergeFields [] fields).
    simpl in Hw, Ho. apply andb_true_iff in Hw as [Hd Hw].
    apply andb_true_iff in Ho as [Hn Ho].
    assert (Hf : forall acc m,
               (forall k, In k (names fields) -> lookup k acc = None) ->
               ordered_names (names acc ++ names fields) = true ->
               baseMergeFields acc fields = Some m -> m = acc ++ fields).
    { clear r Hn.
      induction H as [|[k x] xs Hx _ IH]; intros acc m Hacc Hord.
      - simpl. intros [= <-]. now rewrite app_nil_r.
      - rewrite baseMergeFields_cons. simpl in Hd, Hw, Ho, Hx.
        apply andb_true_iff in Hd as [Hk Hd]. apply negb_true_iff in Hk.
        apply andb_true_iff in Hw as [Hwx Hws].
        apply andb_true_iff in Ho as [Hox Hos].
        destruct (String.eqb k "__proto__"); [discriminate|].
        rewrite (Hacc k) by (simpl; auto).
        destruct (baseMergeDeep None x) as [nx|] eqn:Ex; [|discriminate].
        rewrite (Hx Hwx Hox nx eq_refl).
        rewrite assign_last.
        + intros Hm. apply IH in Hm; try assumption.
          * now rewrite <- app_assoc in Hm.
          * intros k' Hin. rewrite lookup_app_absent
              by (apply Hacc; simpl; auto).
            simpl. destruct (String.eqb k' k) eqn:E; [|reflexivity].
            apply String.eqb_eq in E. subst k'.
            assert (existsb (String.eqb k) (names xs) = true)
              by (apply existsb_exists; exists k;
                  split; [exact Hin | apply String.eqb_refl]).
            congruence.
          * unfold names in *. rewrite map_app. simpl.
            now rewrite <- app_assoc.
        + apply Hacc. simpl. auto.
        + simpl in Hord.
          change (names acc ++ k :: names xs)
            with (names acc ++ [k] ++ names xs) in Hord.
          rewrite app_assoc in Hord.
          now apply ordered_names_app_l in Hord. }
    destruct (baseMergeFields [] fields) as [m|] eqn:Em; [|discriminate].
    simpl. intros [= <-]. f_equal. now apply (Hf [] m).
Qed.

(** Where the destination's value plays no part, the source value is what
    the property ends up holding. *)
Lemma baseMergeDeep_replaces (objValue : option value) (v r : value) :
  canonical v = true ->
  replaces objValue v = true ->
  baseMergeDeep objValue v = Some r ->
  r = v.
Proof.
  unfold canonical. intros Hc Hs Hm.
  apply andb_true_iff in Hc as [Hw Ho].
  apply baseMergeDeep_fresh; [exact Hw | exact Ho |].
  rewrite <- Hm. destruct v; try reflexivity.
  - destruct objValue as [[]|]; try reflexivity; try discriminate.
    simpl in Hs, Hm |- *.
    destruct (arrayLikeLength fields) as [n|]; [|reflexivity].
    apply Z.eqb_eq in Hs. subst n. simpl.
    change (baseMergeSlots_with baseMergeDeep [] items)
      with (baseMergeSlots [] items).
    now rewrite baseMergeSlots_nil.
  - destruct objValue as [[]|]; try reflexivity; discriminate.
Qed.


Lemma lookup_In (k : string) (v : value) fields :
  lookup k fields = Some v -> In (k, v) fields.
Proof.
  induction fields as [|[l w] rest IH]; [discriminate|].
  simpl. destruct (String.eqb k l) eqn:E.
  - apply String.eqb_eq in E. subst l. intros [= ->]. now left.
  - intros H. right. now apply IH.
Qed.

Lemma wf_field (k : string) (v : value) fields :
  wf (JObj fields) = true -> lookup k fields = Some v -> wf v = true.
Proof.
  simpl. intros Hw Hk. apply andb_true_iff in Hw as [_ Hw].
  rewrite forallb_forall in Hw. exact (Hw _ (lookup_In _ _ Hk)).
Qed.

Lemma ordered_field (k : string) (v : value) fields :
  ordered (JObj fields) = true -> lookup k fields = Some v ->
  ordered v = true.
Proof.
  simpl. intros Hw Hk. apply andb_true_iff in Hw as [_ Hw].
  rewrite forallb_forall in Hw. exact (Hw _ (lookup_In _ _ Hk)).
Qed.

Lemma canonical_field (k : string) (v : value) fields :
  canonical (JObj fields) = true -> lookup k fields = Some v ->
  canonical v = true.
Proof.
  unfold canonical. intros Hc Hk. apply andb_true_iff in Hc as [Hw Ho].
  now rewrite (wf_field _ _ Hw Hk), (ordered_field _ _ Ho Hk).
Qed.

Lemma canonical_item (i : nat) (v : value) items :
  canonical (JArr items) = true -> nth_error items i = Some v ->
  canonical v = true.
Proof.
  unfold canonical. simpl. intros Hc Hi.
  apply andb_true_iff in Hc as [Hw Ho].
  rewrite forallb_forall in Hw, Ho. apply nth_error_In in Hi.
  now rewrite (Hw _ Hi), (Ho _ Hi).
Qed.







(** ** Paths through mappings and arrays *)

Lemma canonical_at_steps (path : list step) :
  forall v w,
    canonical v = true -> at_steps path v = Some w -> canonical w = true.
Proof.
  induction path as [|[g|i] path IH]; intros v w Hc; simpl.
  - now intros [= <-].
  - destruct v; try discriminate.
    destruct (lookup g fields) as [x|] eqn:E; [|discriminate].
    apply IH. exact (canonical_field _ _ Hc E).
  - destruct v; try discriminate.
    destruct (nth_error items i) as [x|] eqn:E; [|discriminate].
    apply IH. exact (canonical_item _ _ Hc E).
Qed.

(** Deep merge along a path through mappings and arrays: where the two
    sides hold values of the same kind all along [path], the merged value
    holds at [path] the merge of what the two sides hold there. *)
Lemma baseMergeDeep_at_steps (path : list step) :
  forall e c m ce cc,
    wf c = true ->
    baseMergeDeep (Some e) c = Some m ->
    same_kind e c = true ->
    at_steps path e = Some ce ->
    at_steps path c = Some cc ->
    same_kind ce cc = true ->
    exists cm,
      at_steps path m = Some cm /\ baseMergeDeep (Some ce) cc = Some cm.
Proof.
  induction path as [|st path IH]; intros e c m ce cc Hw Hm Hk He Hc Hkc.
  - simpl in He, Hc. injection He as <-. injection Hc as <-.
    exists m. now split.
  - destruct st as [g|i].
    + destruct e as [| | | | |eo]; try discriminate.
      destruct c as [| | | | |co]; try discriminate.
      simpl in He, Hc.
      destruct (lookup g eo) as [ev|] eqn:Ee; [|discriminate].
      destruct (lookup g co) as [cv|] eqn:Ec; [|discriminate].
      rewrite baseMergeDeep_objects in Hm.
      destruct (baseMergeFields eo co) as [mo|] eqn:Em; [|discriminate].
      injection Hm as <-.
      pose proof (wf_field _ _ Hw Ec) as Hwc.
      simpl in Hw. apply andb_true_iff in Hw as [Hd _].
      destruct (baseMergeFields_present g _ Hd Ec _ Em) as [H1 H2].
      rewrite Ee in H1.
      destruct (lookup g mo) as [mv|] eqn:Emv; [|congruence].
      assert (Hkv : same_kind ev cv = true).
      { destruct path as [|[h|j] path].
        - simpl in He, Hc. now injection He as <-; injection Hc as <-.
        - destruct ev, cv; try discriminate; reflexivity.
        - destruct ev, cv; try discriminate; reflexivity. }
      destruct (IH ev cv mv ce cc Hwc H1 Hkv He Hc Hkc) as [cm [Hp Hr]].
      exists cm. split; [|exact Hr]. simpl. now rewrite Emv.
    + destruct e as [| | | |ei|]; try discriminate.
      destruct c as [| | | |ci|]; try discriminate.
      simpl in He, Hc.
      destruct (nth_error ei i) as [ev|] eqn:Ee; [|discriminate].
      destruct (nth_error ci i) as [cv|] eqn:Ec; [|discriminate].
      rewrite baseMergeDeep_arrays in Hm.
      destruct (baseMergeItems ei ci) as [mi|] eqn:Em; [|discriminate].
      injection Hm as <-.
      assert (Hwc : wf cv = true).
      { simpl in Hw. rewrite forallb_forall in Hw. apply Hw.
        eapply nth_error_In. exact Ec. }
      pose proof (baseMergeItems_nth _ _ Em i) as Hn.
      rewrite Ec, Ee in Hn. destruct Hn as [H1 H2].
      destruct (nth_error mi i) as [mv|] eqn:Emv; [|congruence].
      assert (Hkv : same_kind ev cv = true).
      { destruct path as [|[h|j] path].
        - simpl in He, Hc. now injection He as <-; injection Hc as <-.
        - destruct ev, cv; try discriminate; reflexivity.
        - destruct ev, cv; try discriminate; reflexivity. }
      destruct (IH ev cv mv ce cc Hwc H1 Hkv He Hc Hkc) as [cm [Hp Hr]].
      exists cm. split; [|exact Hr]. simpl. now rewrite Emv.
Qed.

(** ** Arrays copied from array-like mappings, and mappings over arrays *)

Lemma nth_slot_copyArray (fields : list (string * value)) (n i : nat) :
  nth_slot (copyArray fields n) i
  = if Nat.ltb i n then lookup (index_name i) fields else None.
Proof.
  unfold nth_slot, copyArray.
  destruct (Nat.ltb_spec i n) as [Hlt | Hge].
  - rewrite nth_error_map, nth_error_seq.
    apply Nat.ltb_lt in Hlt. now rewrite Hlt.
  - rewrite nth_error_map, nth_error_seq.
    apply Nat.ltb_ge in Hge. now rewrite Hge.
Qed.

Lemma length_copyArray (fields : list (string * value)) (n : nat) :
  List.length (copyArray fields n) = n.
Proof. unfold copyArray. now rewrite length_map, length_seq. Qed.

(** With no source item left the copy is kept, when all its items are
    defined. *)
Lemma baseMergeSlots_done (objSlots : list (option value)) :
  forall merged,
    baseMergeSlots objSlots [] = Some merged ->
    List.length merged = List.length objSlots
    /\ forall i, nth_error merged i = nth_slot objSlots i.
Proof.
  unfold baseMergeSlots. simpl.
  induction objSlots as [|slot rest IH]; intros merged; simpl.
  - intros [= <-]. split; [reflexivity|]. now intros [|i].
  - destruct slot as [item|]; [|discriminate].
    destruct (fold_right _ _ rest) as [items|]; [|discriminate].
    intros [= <-]. destruct (IH items eq_refl) as [Hl Hn].
    split; [simpl; now rewrite Hl|].
    intros [|i]; [reflexivity|]. apply Hn.
Qed.

(** The merge of an array into a copied array-like mapping, item by item:
    an index of the source holds the merge of the two items; an index past
    the source holds the item of the copy. *)
Lemma baseMergeSlots_nth (srcItems : list value) :
  forall objSlots merged,
    baseMergeSlots objSlots srcItems = Some merged ->
    forall i,
      match nth_error srcItems i with
      | Some v =>
          baseMergeDeep (nth_slot objSlots i) v = nth_error merged i
          /\ nth_error merged i <> None
      | None => nth_error merged i = nth_slot objSlots i
      end.
Proof.
  induction srcItems as [|x xs IH]; intros objSlots merged Hm i.
  - replace (nth_error [] i) with (@None value) by now destruct i.
    now apply baseMergeSlots_done.
  - rewrite baseMergeSlots_cons in Hm.
    destruct (baseMergeDeep _ x) as [nx|] eqn:Ex; [|discriminate].
    destruct (baseMergeSlots (tl objSlots) xs) as [m|] eqn:Em;
      [|discriminate].
    injection Hm as <-.
    destruct i as [|i].
    + simpl. unfold nth_slot. destruct objSlots; simpl in *;
        (split; [exact Ex | discriminate]).
    + specialize (IH _ _ Em i). simpl.
      replace (nth_slot objSlots (S i)) with (nth_slot (tl objSlots) i);
        [exact IH|].
      unfold nth_slot. destruct objSlots; simpl; [now destruct i | reflexivity].
Qed.

Lemma baseMergeSlots_length (srcItems : list value) :
  forall objSlots merged,
    baseMergeSlots objSlots srcItems = Some merged ->
    List.length merged
    = Nat.max (List.length objSlots) (List.length srcItems).
Proof.
  induction srcItems as [|x xs IH]; intros objSlots merged Hm.
  - apply baseMergeSlots_done in Hm as [Hl _]. rewrite Hl. simpl. lia.
  - rewrite baseMergeSlots_cons in Hm.
    destruct (baseMergeDeep _ x) as [nx|]; [|discriminate].
    destruct (baseMergeSlots (tl objSlots) xs) as [m|] eqn:Em;
      [|discriminate].
    injection Hm as <-. apply IH in Em. simpl. rewrite Em.
    destruct objSlots; simpl; lia.
Qed.

Lemma length_set_item (i : nat) (v : value) (items : list value) :
  i <= List.length items ->
  List.length (set_item i v items) = Nat.max (List.length items) (S i).
Proof.
  intros Hi. unfold set_item.
  rewrite length_app, length_firstn.
  change (List.length (v :: skipn (S i) items))
    with (S (List.length (skipn (S i) items))).
  rewrite length_skipn. lia.
Qed.

Lemma nth_error_set_item_same (i : nat) (v : value) (items : list value) :
  i <= List.length items ->
  nth_error (set_item i v items) i = Some v.
Proof.
  intros Hi. unfold set_item.
  rewrite nth_error_app2; rewrite length_firstn;
    replace (Nat.min i (List.length items)) with i by lia; [|lia].
  now rewrite Nat.sub_diag.
Qed.

Lemma nth_error_set_item_other (i j : nat) (v : value) (items : list value) :
  i <= List.length items -> j <> i ->
  nth_error (set_item i v items) j = nth_error items j.
Proof.
  intros Hi Hne. unfold set_item.
  destruct (Nat.lt_ge_cases j i) as [Hlt | Hge].
  - rewrite nth_error_app1 by (rewrite length_firstn; lia).
    rewrite nth_error_firstn. apply Nat.ltb_lt in Hlt. now rewrite Hlt.
  - rewrite nth_error_app2 by (rewrite length_firstn; lia).
    rewrite length_firstn.
    replace (Nat.min i (List.length items)) with i by lia.
    destruct (j - i) as [|d] eqn:Ed; [lia|]. cbn [nth_error].
    rewrite nth_error_skipn. f_equal. lia.
Qed.

Lemma set_item_same (i : nat) (v : value) (items : list value) :
  nth_error items i = Some v -> set_item i v items = items.
Proof.
  unfold set_item. revert items.
  induction i as [|i IH]; intros [|x xs]; simpl; try discriminate.
  - now intros [= ->].
  - intros H. f_equal. now apply IH.
Qed.

(** A mapping merged into an array: the array does not shrink, and an item
    that no property of the mapping names is kept. *)
Lemma baseMergeIndexed_keeps (srcFields : list (string * value)) :
  forall objItems merged,
    baseMergeIndexed objItems srcFields = Some merged ->
    List.length objItems <= List.length merged
    /\ forall i,
         lookup (index_name i) srcFields = None ->
         nth_error merged i = nth_error objItems i.
Proof.
  induction srcFields as [|[k v] rest IH]; intros objItems merged Hm.
  - injection Hm as <-. auto.
  - rewrite baseMergeIndexed_cons in Hm.
    destruct (array_index k) as [j|] eqn:Ek; [|discriminate].
    destruct (N.leb_spec j (N.of_nat (List.length objItems))) as [Hj|];
      [|discriminate].
    destruct (baseMergeDeep _ v) as [nv|]; [|discriminate].
    destruct (IH _ _ Hm) as [Hl Hn].
    assert (Hj' : N.to_nat j <= List.length objItems) by lia.
    rewrite length_set_item in Hl by exact Hj'.
    split; [lia|].
    intros i Hi. simpl in Hi.
    destruct (String.eqb_spec (index_name i) k) as [E | Hne]; [discriminate|].
    rewrite (Hn i Hi). apply nth_error_set_item_other; [exact Hj'|].
    intros ->. apply Hne. symmetry. now apply array_index_name.
Qed.

(** A mapping merged into an array: the item named by a property of the
    mapping holds the merge of that property into the item. *)
Lemma baseMergeIndexed_named (srcFields : list (string * value)) :
  distinct (names srcFields) = true ->
  forall objItems merged,
    baseMergeIndexed objItems srcFields = Some merged ->
    forall k v,
      lookup k srcFields = Some v ->
      exists i,
        array_index k = Some i
        /\ baseMergeDeep (nth_error objItems (N.to_nat i)) v
           = nth_error merged (N.to_nat i)
        /\ nth_error merged (N.to_nat i) <> None.
Proof.
  induction srcFields as [|[l w] rest IH]; intros Hd objItems merged Hm k v Hk;
    [discriminate|].
  rewrite baseMergeIndexed_cons in Hm.
  destruct (array_index l) as [j|] eqn:El; [|discriminate].
  destruct (N.leb_spec j (N.of_nat (List.length objItems))) as [Hj|];
    [|discriminate].
  destruct (baseMergeDeep _ w) as [nw|] eqn:Ew; [|discriminate].
  assert (Hj' : N.to_nat j <= List.length objItems) by lia.
  simpl in Hd. apply andb_true_iff in Hd as [Hl Hd].
  apply negb_true_iff in Hl.
  simpl in Hk. destruct (String.eqb_spec k l) as [-> | Hne].
  - injection Hk as <-. exists j. split; [exact El|].
    destruct (baseMergeIndexed_keeps _ _ Hm) as [_ Hn].
    rewrite (Hn (N.to_nat j)).
    + rewrite nth_error_set_item_same by exact Hj'.
      split; [exact Ew | discriminate].
    + rewrite <- (array_index_name _ El). now apply lookup_not_named.
  - destruct (IH Hd _ _ Hm k v Hk) as [i [Ei [H1 H2]]].
    exists i. split; [exact Ei|]. split; [|exact H2].
    rewrite <- H1. f_equal. symmetry.
    apply nth_error_set_item_other; [exact Hj'|].
    intros E. apply Hne. apply N2Nat.inj in E. subst i.
    exact (array_index_inj _ _ Ei El).
Qed.

(** ** One step into a merge *)

Lemma at_steps_snoc (path : list step) (st : step) :
  forall v c,
    at_steps path v = Some c ->
    at_steps (path ++ [st]) v = child st c.
Proof.
  induction path as [|[g|j] path IH]; intros v c; simpl.
  - intros [= ->]. destruct st, c; simpl; try reflexivity.
    + now destruct (lookup name fields).
    + now destruct (nth_error items i).
  - destruct v; try discriminate.
    destruct (lookup g fields) as [w|]; [apply IH | discriminate].
  - destruct v; try discriminate.
    destruct (nth_error items j) as [w|]; [apply IH | discriminate].
Qed.

Lemma canonical_child (st : step) (v w : value) :
  canonical v = true -> child st v = Some w -> canonical w = true.
Proof.
  destruct st, v; simpl; try discriminate; intros Hc Hw.
  - exact (canonical_field _ _ Hc Hw).
  - exact (canonical_item _ _ Hc Hw).
Qed.

Lemma canonical_wf (v : value) : canonical v = true -> wf v = true.
Proof. unfold canonical. intros H. now apply andb_true_iff in H as [H _]. Qed.

(** Where both sides hold a container of the same kind, what the source
    holds one step further is merged into what the destination holds
    there. *)
Lemma baseMergeDeep_child (st : step) (ce cc cm v : value) :
  same_kind ce cc = true ->
  wf cc = true ->
  baseMergeDeep (Some ce) cc = Some cm ->
  child st cc = Some v ->
  baseMergeDeep (child st ce) v = child st cm /\ child st cm <> None.
Proof.
  intros Hk Hw Hm Hv.
  destruct ce as [| | | |ei|eo], cc as [| | | |ci|co]; try discriminate;
    destruct st as [f|i]; try discriminate.
  - rewrite baseMergeDeep_arrays in Hm.
    destruct (baseMergeItems ei ci) as [mi|] eqn:Em; [|discriminate].
    injection Hm as <-. simpl in Hv |- *.
    pose proof (baseMergeItems_nth _ _ Em i) as Hn. now rewrite Hv in Hn.
  - rewrite baseMergeDeep_objects in Hm.
    destruct (baseMergeFields eo co) as [mo|] eqn:Em; [|discriminate].
    injection Hm as <-. simpl in Hv |- *.
    simpl in Hw. apply andb_true_iff in Hw as [Hd _].
    exact (baseMergeFields_present f _ Hd Hv _ Em).
Qed.


(** ** What the merge leaves where the two sides differ in kind, and for
       arrays *)

(** An array over an array. *)
Lemma baseMergeDeep_array_items (ei ci : list value) (r : value) :
  canonical (JArr ci) = true ->
  baseMergeDeep (Some (JArr ei)) (JArr ci) = Some r ->
  exists mi,
    r = JArr mi
    /\ List.length mi = Nat.max (List.length ei) (List.length ci)
    /\ (forall i, List.length ci <= i -> nth_error mi i = nth_error ei i)
    /\ (forall i w,
           nth_error ci i = Some w ->
           replaces (nth_error ei i) w = true ->
           nth_error mi i = Some w).
Proof.
  intros Hc Hm. rewrite baseMergeDeep_arrays in Hm.
  destruct (baseMergeItems ei ci) as [mi|] eqn:Em; [|discriminate].
  injection Hm as <-. exists mi. split; [reflexivity|].
  split; [exact (baseMergeItems_length _ _ Em)|]. split.
  - intros i Hi. pose proof (baseMergeItems_nth _ _ Em i) as Hn.
    apply nth_error_None in Hi. now rewrite Hi in Hn.
  - intros i w Hw Hr. pose proof (baseMergeItems_nth _ _ Em i) as Hn.
    rewrite Hw in Hn. destruct Hn as [H1 H2].
    destruct (nth_error mi i) as [x|]; [|contradiction].
    f_equal. eapply baseMergeDeep_replaces; [|exact Hr | exact H1].
    exact (canonical_item _ _ Hc Hw).
Qed.

(** An array over a mapping with a valid [length]: the mapping is read as
    the array of its properties named [0] to [length - 1]. *)
Lemma baseMergeDeep_array_like_items (like : list (string * value))
      (ci : list value) (n : Z) (r : value) :
  canonical (JArr ci) = true ->
  arrayLikeLength like = Some n ->
  baseMergeDeep (Some (JObj like)) (JArr ci) = Some r ->
  exists mi,
    r = JArr mi
    /\ List.length mi = Nat.max (Z.to_nat n) (List.length ci)
    /\ (forall i,
           List.length ci <= i -> i < Z.to_nat n ->
           nth_error mi i = lookup (index_name i) like)
    /\ (forall i w,
           nth_error ci i = Some w ->
           baseMergeDeep
             (if Nat.ltb i (Z.to_nat n) then lookup (index_name i) like
              else None) w
           = nth_error mi i
           /\ (replaces
                 (if Nat.ltb i (Z.to_nat n) then lookup (index_name i) like
                  else None) w = true ->
               nth_error mi i = Some w)).
Proof.
  intros Hc Hn Hm.
  destruct (Z.leb_spec n MAX_ARRAY_LENGTH) as [Hle | Hgt].
  - rewrite (baseMergeDeep_array_like _ _ Hn Hle) in Hm.
    destruct (baseMergeSlots _ ci) as [mi|] eqn:Em; [|discriminate].
    injection Hm as <-. exists mi. split; [reflexivity|].
    split.
    { rewrite (baseMergeSlots_length _ _ Em). now rewrite length_copyArray. }
    split.
    + intros i Hi Hlt. pose proof (baseMergeSlots_nth _ _ Em i) as Hs.
      apply nth_error_None in Hi. rewrite Hi in Hs.
      rewrite Hs, nth_slot_copyArray.
      apply Nat.ltb_lt in Hlt. now rewrite Hlt.
    + intros i w Hw. pose proof (baseMergeSlots_nth _ _ Em i) as Hs.
      rewrite Hw, nth_slot_copyArray in Hs. destruct Hs as [H1 H2].
      split; [exact H1|]. intros Hr.
      destruct (nth_error mi i) as [x|]; [|contradiction].
      f_equal. eapply baseMergeDeep_replaces; [|exact Hr | exact H1].
      exact (canonical_item _ _ Hc Hw).
  - simpl in Hm. rewrite Hn in Hm.
    apply Z.leb_gt in Hgt. now rewrite Hgt in Hm.
Qed.

(** A mapping over an array: the array stays an array; each property of the
    mapping is named by an index and is merged into that item, and the
    other items are kept. *)
Lemma baseMergeDeep_indexed_items (ei : list value)
      (co : list (string * value)) (r : value) :
  canonical (JObj co) = true ->
  baseMergeDeep (Some (JArr ei)) (JObj co) = Some r ->
  exists mi,
    r = JArr mi
    /\ List.length ei <= List.length mi
    /\ (forall i,
           lookup (index_name i) co = None ->
           nth_error mi i = nth_error ei i)
    /\ (forall k w,
           lookup k co = Some w ->
           exists i,
             array_index k = Some i
             /\ baseMergeDeep (nth_error ei (N.to_nat i)) w
                = nth_error mi (N.to_nat i)
             /\ (replaces (nth_error ei (N.to_nat i)) w = true ->
                 nth_error mi (N.to_nat i) = Some w)).
Proof.
  intros Hc Hm. rewrite baseMergeDeep_object_array in Hm.
  destruct (baseMergeIndexed ei co) as [mi|] eqn:Em; [|discriminate].
  injection Hm as <-. exists mi. split; [reflexivity|].
  destruct (baseMergeIndexed_keeps _ _ Em) as [Hl Hk].
  split; [exact Hl|]. split; [exact Hk|].
  intros k w Hw.
  assert (Hd : distinct (names co) = true).
  { apply canonical_wf in Hc. simpl in Hc.
    now apply andb_true_iff in Hc as [Hd _]. }
  destruct (baseMergeIndexed_named _ Hd _ Em _ Hw) as [i [Hi [H1 H2]]].
  exists i. split; [exact Hi|]. split; [exact H1|]. intros Hr.
  destruct (nth_error mi (N.to_nat i)) as [x|]; [|contradiction].
  f_equal. eapply baseMergeDeep_replaces; [|exact Hr | exact H1].
  exact (canonical_field _ _ Hc Hw).
Qed.

End LodashFacts.

(** ** Facts about the core store *)

Module StoreFacts.
Local Open Scope list_scope.

Lemma healthy_head (s : state) :
  healthy s = true ->
  forall later, faults s <> true :: later.
Proof.
  unfold healthy. intros H later E. rewrite E in H. discriminate.
Qed.

Lemma healthy_tl (s : state) :
  healthy s = true -> forallb negb (tl (faults s)) = true.
Proof.
  unfold healthy. destruct (faults s) as [|b l]; simpl; [easy|].
  intros H. now apply andb_true_iff in H.
Qed.

(** A call on a healthy store is carried out. *)
Lemma perform_healthy {A} (c : call) (run : list value -> A * list value)
      (s : state) :
  healthy s = true ->
  perform c run s =
    (Returned (fst (run (entries s))),
     {| entries := snd (run (entries s)); calls := calls s ++ [c];
        faults := tl (faults s) |}).
Proof.
  intros H. unfold perform.
  destruct (faults s) as [|[] l] eqn:E.
  - now destruct (run (entries s)).
  - now apply healthy_head with (later := l) in H.
  - now destruct (run (entries s)).
Qed.

(** Whatever its result, a call adds itself to the log, and changes the
    entries only if it is carried out. *)
Lemma perform_cases {A} (c : call) (run : list value -> A * list value)
      (s : state) :
  (perform c run s =
     (Thrown (StoreError (operation c)),
      {| entries := entries s; calls := calls s ++ [c];
         faults := tl (faults s) |}))
  \/
  (perform c run s =
     (Returned (fst (run (entries s))),
      {| entries := snd (run (entries s)); calls := calls s ++ [c];
         faults := tl (faults s) |})).
Proof.
  unfold perform. destruct (faults s) as [|[] l]; simpl.
  - right. now destruct (run (entries s)).
  - now left.
  - right. now destruct (run (entries s)).
Qed.

Lemma matches_own_key (fields : list (string * value)) :
  matches (Json.lookup "key" fields) (JObj fields) = true.
Proof. unfold matches. simpl. apply JsonFacts.eqb_opt_refl. Qed.

Lemma matching_app (k : filter) (es es' : list value) :
  matching k (es ++ es') = matching k es ++ matching k es'.
Proof. apply filter_app. Qed.

Lemma others_app (k : filter) (es es' : list value) :
  others k (es ++ es') = others k es ++ others k es'.
Proof. apply filter_app. Qed.

Lemma matching_none (k : filter) (es : list value) :
  existsb (matches k) es = false <-> matching k es = [].
Proof.
  induction es as [|e es IH]; simpl; [easy|].
  destruct (matches k e); simpl; [easy | exact IH].
Qed.

Lemma matching_some (k : filter) (es : list value) :
  existsb (matches k) es = true <-> (0 < List.length (matching k es))%nat.
Proof.
  induction es as [|e es IH]; simpl.
  - split; [discriminate | lia].
  - destruct (matches k e); simpl; [split; [lia | easy] | exact IH].
Qed.

Lemma find_none (k : filter) (es : list value) :
  existsb (matches k) es = false <-> List.find (matches k) es = None.
Proof.
  induction es as [|e es IH]; simpl; [easy|].
  destruct (matches k e); simpl; [easy | exact IH].
Qed.

(** Overwriting the addressed entry with a record of the same key. *)
Lemma matching_overwrite (k : filter) (record : value) (es : list value) :
  matches k record = true ->
  existsb (matches k) es = true ->
  matching k (overwrite k record es) = record :: tl (matching k es).
Proof.
  intros Hr. induction es as [|e es IH]; simpl; [discriminate|].
  destruct (matches k e) eqn:E; simpl.
  - intros _. now rewrite Hr.
  - intros H. rewrite E. now apply IH.
Qed.

Lemma others_overwrite (k : filter) (record : value) (es : list value) :
  matches k record = true ->
  others k (overwrite k record es) = others k es.
Proof.
  intros Hr. induction es as [|e es IH]; simpl; [reflexivity|].
  destruct (matches k e) eqn:E; simpl.
  - now rewrite Hr.
  - rewrite E. simpl. now rewrite IH.
Qed.

Lemma others_absent (k : filter) (es : list value) :
  existsb (matches k) es = false -> others k es = es.
Proof.
  induction es as [|e es IH]; simpl; [reflexivity|].
  destruct (matches k e); simpl; [discriminate|].
  intros H. now rewrite IH.
Qed.

Lemma overwrite_last (k : filter) (record entry : value) (es : list value) :
  existsb (matches k) es = false ->
  matches k entry = true ->
  overwrite k record (es ++ [entry]) = es ++ [record].
Proof.
  intros Ha Hm. induction es as [|e es IH]; simpl in *.
  - now rewrite Hm.
  - destruct (matches k e); [discriminate|]. now rewrite IH.
Qed.

Lemma matching_last (k : filter) (entry : value) (es : list value) :
  existsb (matches k) es = false ->
  matches k entry = true ->
  matching k (es ++ [entry]) = [entry].
Proof.
  intros Ha Hm. rewrite matching_app.
  apply matching_none in Ha. rewrite Ha. unfold matching. simpl.
  now rewrite Hm.
Qed.

Lemma count_positive (k : filter) (es : list value) :
  (0 <? Z.of_nat (List.length (matching k es)))%Z = existsb (matches k) es.
Proof.
  destruct (existsb (matches k) es) eqn:E.
  - apply matching_some in E. apply Z.ltb_lt. lia.
  - apply matching_none in E. now rewrite E.
Qed.

End StoreFacts.

(** ** The importers on the core store *)

Import StoreFacts.
Local Open Scope list_scope.

Ltac run_async :=
  unfold import, createReplaceImporter, createMergeImporter,
    createKeepImporter, bind, lift, ret, throw, unmodelled, get_key,
    query, count, find, create, update.

Ltac step_healthy H :=
  rewrite perform_healthy by (first [exact H | apply healthy_tl; exact H]);
  cbn [fst snd entries calls faults].

Lemma get_key_cases (conf : value) :
  (conf = JNull /\ get_key conf = inl TypeError)
  \/ (exists k, get_key conf = inr k).
Proof. destruct conf; simpl; eauto. Qed.

(** What each importer does for a record on a store that answers its
    calls. *)
Lemma replace_import_healthy (s : state) (fields : list (string * value)) :
  healthy s = true ->
  import (createReplaceImporter query) (JObj fields) s =
    (Returned tt,
     {| entries :=
          (if existsb (matches (Json.lookup "key" fields)) (entries s)
           then overwrite (Json.lookup "key" fields) (JObj fields) (entries s)
           else entries s ++ [JObj fields]);
        calls :=
          calls s ++
            [Count (Json.lookup "key" fields);
             if existsb (matches (Json.lookup "key" fields)) (entries s)
             then Update (Json.lookup "key" fields) (JObj fields)
             else Create (JObj fields)];
        faults := tl (tl (faults s)) |}).
Proof.
  intros Hs. run_async. step_healthy Hs. rewrite count_positive.
  destruct (existsb _ (entries s));
    rewrite perform_healthy by (apply healthy_tl; exact Hs);
    cbn [fst snd entries calls faults]; now rewrite <- app_assoc.
Qed.

Lemma keep_import_healthy (s : state) (fields : list (string * value)) :
  healthy s = true ->
  import (createKeepImporter query) (JObj fields) s =
    (Returned tt,
     if existsb (matches (Json.lookup "key" fields)) (entries s)
     then {| entries := entries s;
             calls := calls s ++ [Count (Json.lookup "key" fields)];
             faults := tl (faults s) |}
     else {| entries := entries s ++ [JObj fields];
             calls := calls s ++ [Count (Json.lookup "key" fields);
                                  Create (JObj fields)];
             faults := tl (tl (faults s)) |}).
Proof.
  intros Hs. run_async. step_healthy Hs. rewrite count_positive.
  destruct (existsb _ (entries s)); [reflexivity|].
  rewrite perform_healthy by (apply healthy_tl; exact Hs).
  cbn [fst snd entries calls faults]. now rewrite <- app_assoc.
Qed.

Lemma merge_import_healthy (s : state) (fields : list (string * value)) :
  healthy s = true ->
  import (createMergeImporter query) (JObj fields) s =
    let k := Json.lookup "key" fields in
    let created :=
      (Returned tt,
       {| entries := entries s ++ [JObj fields];
          calls := calls s ++ [Find k; Create (JObj fields)];
          faults := tl (tl (faults s)) |}) in
    match List.find (matches k) (entries s) with
    | Some existing =>
        if Json.truthy existing then
          match Lodash.merge existing (JObj fields) with
          | Some merged =>
              (Returned tt,
               {| entries := overwrite k merged (entries s);
                  calls := calls s ++ [Find k; Update k merged];
                  faults := tl (tl (faults s)) |})
          | None =>
              (Unmodelled,
               {| entries := entries s; calls := calls s ++ [Find k];
                  faults := tl (faults s) |})
          end
        else created
    | None => created
    end.
Proof.
  intros Hs. run_async. step_healthy Hs.
  destruct (List.find _ (entries s)) as [existing|]; cbn zeta.
  - destruct (Json.truthy existing).
    + destruct (Lodash.merge existing (JObj fields)); [|reflexivity].
      rewrite perform_healthy by (apply healthy_tl; exact Hs).
      cbn [fst snd entries calls faults]. now rewrite <- app_assoc.
    + rewrite perform_healthy by (apply healthy_tl; exact Hs).
      cbn [fst snd entries calls faults]. now rewrite <- app_assoc.
  - rewrite perform_healthy by (apply healthy_tl; exact Hs).
    cbn [fst snd entries calls faults]. now rewrite <- app_assoc.
Qed.

Lemma healthy_after (s : state) (es : list value) (cs : list call) :
  healthy s = true ->
  healthy {| entries := es; calls := cs; faults := tl (tl (faults s)) |} = true.
Proof.
  intros Hs. unfold healthy in *. cbn [faults].
  destruct (faults s) as [|b [|b' l]]; simpl in *; try reflexivity.
  apply andb_true_iff in Hs as [_ Hs].
  now apply andb_true_iff in Hs as [_ Hs].
Qed.

Ltac failed_query :=
  split;
  [reflexivity
  | right; left; eexists; split; [|reflexivity]; reflexivity].

Ltac failed_write :=
  split;
  [reflexivity
  | right; right; do 2 eexists;
    split; [|rewrite <- app_assoc; reflexivity]; reflexivity].

(** A failed import has written nothing: it stopped at the property read,
    at the query, or at the one write, and a failed store call is atomic. *)
Lemma import_failure_writes_nothing
      (strategy : string) (importer : Importer state)
      (conf : value) (s s' : state) (e : exn) :
  createImporter query strategy = inr importer ->
  import importer conf s = (Thrown e, s') ->
  entries s' = entries s
  /\ ((e = TypeError /\ s' = s)
      \/ (exists q, e = StoreError (operation q) /\ calls s' = calls s ++ [q])
      \/ (exists q w,
             e = StoreError (operation w) /\ calls s' = calls s ++ [q; w])).
Proof.
  unfold createImporter. intros Hc.
  destruct (String.eqb strategy "replace");
    [|destruct (String.eqb strategy "merge");
      [|destruct (String.eqb strategy "keep"); [|discriminate]]];
    injection Hc as <-;
    unfold import, createReplaceImporter, createMergeImporter,
      createKeepImporter, bind, lift, ret, throw, unmodelled,
      query, count, find, create, update, perform;
    (destruct (get_key_cases conf) as [[_ ->] | [k ->]];
     [intros H; injection H as <- <-; auto|]).
  - destruct (faults s) as [|[] later]; cbn [fst snd entries calls faults].
    + destruct (0 <? _)%Z; cbn; discriminate.
    + intros H; injection H as <- <-. cbn. failed_query.
    + destruct (0 <? _)%Z; cbn [entries calls faults];
        (destruct later as [|[] later'];
         [discriminate
         | intros H; injection H as <- <-; cbn; failed_write
         | discriminate]).
  - destruct (faults s) as [|[] later]; cbn [fst snd entries calls faults].
    + destruct (List.find _ _) as [v|]; [destruct (Json.truthy v);
        [destruct (Lodash.merge v conf)|]|]; cbn; discriminate.
    + intros H; injection H as <- <-. cbn. failed_query.
    + destruct (List.find _ _) as [v|]; [destruct (Json.truthy v);
        [destruct (Lodash.merge v conf); [|discriminate]|]|];
        cbn [entries calls faults];
        (destruct later as [|[] later'];
         [discriminate
         | intros H; injection H as <- <-; cbn; failed_write
         | discriminate]).
  - destruct (faults s) as [|[] later]; cbn [fst snd entries calls faults].
    + destruct (0 <? _)%Z; cbn; discriminate.
    + intros H; injection H as <- <-. cbn. failed_query.
    + destruct (0 <? _)%Z; cbn [entries calls faults]; [discriminate|].
      destruct later as [|[] later'];
        [discriminate
        | intros H; injection H as <- <-; cbn; failed_write
        | discriminate].
Qed.

(** The loop goes through the records in order: a prefix that completes
    hands its final state to the rest. *)
Lemma for_of_app {S A} (xs ys : list A) (body : A -> Async S unit)
      (s s1 : S) :
  for_of xs body s = (Returned tt, s1) ->
  for_of (xs ++ ys) body s = for_of ys body s1.
Proof.
  revert s. induction xs as [|x xs IH]; intros s; simpl.
  - unfold ret. now intros [= ->].
  - unfold bind. destruct (body x s) as [[[]| |] s0]; try discriminate.
    apply IH.
Qed.

(** C1.  Replace importer, for a record [conf] whose [key] is [k], on a store
    that answers its calls and holds at most one entry for [k]: the importer
    asks the store for the count of [k]; if an entry exists it updates it
    with [conf] itself, otherwise it creates [conf]; afterwards the entries
    for [k] are exactly [conf], whatever the previous entry held, and the
    entries of the other keys are as before. *)
Theorem replace_import_overwrites
        (s : state) (fields : list (string * value)) (k : value) :
  Json.lookup "key" fields = Some k ->
  healthy s = true ->
  unique (Some k) s ->
  exists s',
    import (createReplaceImporter query) (JObj fields) s = (Returned tt, s')
    /\ calls s' =
         calls s ++
           [Count (Some k);
            if existsb (matches (Some k)) (entries s)
            then Update (Some k) (JObj fields)
            else Create (JObj fields)]
    /\ entries s' =
         (if existsb (matches (Some k)) (entries s)
          then overwrite (Some k) (JObj fields) (entries s)
          else entries s ++ [JObj fields])
    /\ matching (Some k) (entries s') = [JObj fields]
    /\ others (Some k) (entries s') = others (Some k) (entries s).
Proof.
  intros Hk Hs Hu.
  assert (Hm : matches (Some k) (JObj fields) = true)
    by (rewrite <- Hk; apply matches_own_key).
  run_async. rewrite Hk. step_healthy Hs. rewrite count_positive.
  destruct (existsb (matches (Some k)) (entries s)) eqn:E.
  - rewrite perform_healthy by (apply healthy_tl; exact Hs).
    cbn [fst snd entries calls faults].
    eexists. split; [reflexivity|]. cbn [entries calls].
    rewrite <- app_assoc. repeat split.
    + rewrite matching_overwrite by assumption.
      unfold unique in Hu. apply matching_some in E.
      destruct (matching (Some k) (entries s)) as [|e [|e' l]];
        simpl in *; [lia | reflexivity | lia].
    + now apply others_overwrite.
  - rewrite perform_healthy by (apply healthy_tl; exact Hs).
    cbn [fst snd entries calls faults].
    eexists. split; [reflexivity|]. cbn [entries calls].
    rewrite <- app_assoc. repeat split.
    + rewrite matching_app. apply matching_none in E. rewrite E.
      simpl. unfold matching. simpl. now rewrite Hm.
    + rewrite others_app. simpl. rewrite Hm. simpl. apply app_nil_r.
Qed.

(** C4.  Keep importer, for a record whose key already has an entry in the
    store: the only store call is the count; no write is made, so the
    entries are exactly as before and the incoming record is dropped without
    an error (the one possible failure is that of the count itself).  Keep
    therefore creates entries only for keys that have none. *)
Theorem keep_import_leaves_existing
        (s : state) (fields : list (string * value)) :
  existsb (matches (Json.lookup "key" fields)) (entries s) = true ->
  exists o s',
    import (createKeepImporter query) (JObj fields) s = (o, s')
    /\ entries s' = entries s
    /\ calls s' = calls s ++ [Count (Json.lookup "key" fields)]
    /\ (o = Returned tt \/ o = Thrown (StoreError "count"))
    /\ (healthy s = true -> o = Returned tt).
Proof.
  intros E. run_async.
  destruct (perform_cases (Count (Json.lookup "key" fields))
              (fun es =>
                 (Z.of_nat
                    (List.length (matching (Json.lookup "key" fields) es)),
                  es)) s) as [F | F]; rewrite F; cbn [fst snd].
  - do 2 eexists. split; [reflexivity|]. cbn [entries calls].
    repeat split; [now right|].
    intros H. rewrite perform_healthy in F by exact H. discriminate.
  - rewrite count_positive, E.
    do 2 eexists. split; [reflexivity|]. cbn [entries calls].
    repeat split; now left.
Qed.

(** C5.  For each of the three strategies, importing a record whose key has
    no entry in a store that answers its calls creates exactly one entry,
    the record itself, after the existing entries; the only calls are the
    query for the key and that one create. *)
Theorem import_absent_creates
        (strategy : string) (s : state) (fields : list (string * value)) :
  In strategy ["replace"; "merge"; "keep"]%string ->
  healthy s = true ->
  existsb (matches (Json.lookup "key" fields)) (entries s) = false ->
  exists importer s' q,
    createImporter query strategy = inr importer
    /\ import importer (JObj fields) s = (Returned tt, s')
    /\ entries s' = entries s ++ [JObj fields]
    /\ calls s' = calls s ++ [q; Create (JObj fields)]
    /\ (q = Count (Json.lookup "key" fields)
        \/ q = Find (Json.lookup "key" fields)).
Proof.
  intros Hin Hs E.
  assert (Hc : (0 <? Z.of_nat (List.length
                   (matching (Json.lookup "key" fields) (entries s))))%Z
               = false) by (now rewrite count_positive).
  assert (Hf : List.find (matches (Json.lookup "key" fields)) (entries s)
               = None) by (now apply find_none).
  destruct Hin as [<- | [<- | [<- | []]]]; eexists; do 2 eexists;
    (split; [reflexivity|]); run_async; step_healthy Hs;
    rewrite ?Hc, ?Hf;
    rewrite perform_healthy by (apply healthy_tl; exact Hs);
    cbn [fst snd entries calls faults]; rewrite <- app_assoc;
    (split; [reflexivity|]); cbn [entries calls];
    (split; [reflexivity|]); (split; [reflexivity|]); auto.
Qed.

Lemma for_of_two {S A} (x y : A) (body : A -> Async S unit) (s : S) :
  for_of [x; y] body s =
    match body x s with
    | (Returned _, s1) =>
        match body y s1 with
        | (Returned _, s2) => (Returned tt, s2)
        | other => other
        end
    | other => other
    end.
Proof.
  simpl. unfold bind, ret.
  destruct (body x s) as [[[]| |] s1]; reflexivity.
Qed.

(** ** The command *)

Section Command.
Variable S : Type.
Variable db : Query S.
Variable JSON_parse : string -> string + value.

(** With a parsed array and a known strategy, the command is the loop
    over the records followed by the summary line. *)
Lemma restore_runs
      (input strategy : string) (configs : list value)
      (importer : Importer S) (s : S) :
  JSON_parse input = inr (JArr configs) ->
  createImporter db strategy = inr importer ->
  configurationRestore db JSON_parse input (Some strategy) s =
    match for_of configs (import importer) s with
    | (Returned _, s') =>
        (Returned (Examples.summary (List.length configs) strategy), s')
    | (Thrown e, s') => (Thrown e, s')
    | (Unmodelled, s') => (Unmodelled, s')
    end.
Proof.
  intros Hp Hc. unfold configurationRestore. rewrite Hp.
  unfold bind at 1, lift. rewrite Hc. unfold ret at 1. unfold bind.
  now destruct (for_of configs (import importer) s) as [[[]| |] s'].
Qed.

(** C6.  A strategy other than [replace], [merge] and [keep] has no
    importer: the factory throws an error that quotes the unknown name.
    In the command, for an input that parses to an array, this error is
    the outcome and the database is left in the state it was in: no
    record is imported and no store call is made, whatever the database
    does on a call. *)
Theorem unknown_strategy_rejected
        (input strategy : string) (configs : list value) (s : S) :
  JSON_parse input = inr (JArr configs) ->
  ~ In strategy ["replace"; "merge"; "keep"]%string ->
  createImporter db strategy =
    inl (Error ("No importer available for strategy "
                  ++ dquote ++ strategy ++ dquote)%string)
  /\ configurationRestore db JSON_parse input (Some strategy) s =
       (Thrown (Error ("No importer available for strategy "
                         ++ dquote ++ strategy ++ dquote)%string), s).
Proof.
  intros Hp Hn.
  assert (Hc : createImporter db strategy =
                 inl (Error ("No importer available for strategy "
                               ++ dquote ++ strategy ++ dquote)%string)).
  { unfold createImporter.
    destruct (String.eqb_spec strategy "replace") as [-> | _];
      [exfalso; apply Hn; simpl; auto|].
    destruct (String.eqb_spec strategy "merge") as [-> | _];
      [exfalso; apply Hn; simpl; auto|].
    destruct (String.eqb_spec strategy "keep") as [-> | _];
      [exfalso; apply Hn; simpl; auto|].
    reflexivity. }
  split; [exact Hc|].
  unfold configurationRestore. rewrite Hp.
  unfold bind, lift. now rewrite Hc.
Qed.

(** C7.  An input that does not parse to an array is rejected before the
    database is touched: the outcome is an error whose message embeds the
    parser's message when the text is not JSON, and the fixed message when
    the parsed value is not an array; the database is left in the state it
    was in, whatever the strategy and whatever the database does on a
    call. *)
Theorem invalid_input_rejected
        (input : string) (strategy : option string) (s : S) :
  (forall configs, JSON_parse input <> inr (JArr configs)) ->
  configurationRestore db JSON_parse input strategy s =
    (Thrown
       (Error
          match JSON_parse input with
          | inl message =>
              ("Invalid input data: " ++ message
                 ++ ". Expected a valid JSON array.")%string
          | inr _ => "Invalid input data. Expected a valid JSON array."
          end), s).
Proof.
  intros Hn. unfold configurationRestore.
  destruct (JSON_parse input) as [message | v]; [reflexivity|].
  destruct v; try reflexivity.
  now contradiction (Hn items).
Qed.
End Command.

(** C8.  The records are imported one after the other, in the order of the
    array.  When the records before some record [conf] have been imported
    and the import of [conf] fails, the command fails with that very error
    in the state the failed import left: the records after [conf] play no
    part.  The entries are those left by the records before [conf] (nothing
    is undone, and the failed import wrote nothing), and the failed import
    made each of its calls once: none at all, the query, or the query and
    the write. *)
Theorem batch_stops_at_first_failure
        (JSON_parse : string -> string + value) (input strategy : string)
        (importer : Importer state) (done rest : list value) (conf : value)
        (s s1 s2 : state) (e : exn) :
  JSON_parse input = inr (JArr (done ++ conf :: rest)) ->
  createImporter query strategy = inr importer ->
  for_of done (import importer) s = (Returned tt, s1) ->
  import importer conf s1 = (Thrown e, s2) ->
  configurationRestore query JSON_parse input (Some strategy) s
    = (Thrown e, s2)
  /\ for_of (done ++ conf :: rest) (import importer) s = (Thrown e, s2)
  /\ entries s2 = entries s1
  /\ ((e = TypeError /\ s2 = s1)
      \/ (exists q,
             e = StoreError (operation q) /\ calls s2 = calls s1 ++ [q])
      \/ (exists q w,
             e = StoreError (operation w) /\ calls s2 = calls s1 ++ [q; w])).
Proof.
  intros Hp Hc Hd Hi.
  assert (Hl : for_of (done ++ conf :: rest) (import importer) s
               = (Thrown e, s2)).
  { rewrite for_of_app with (s1 := s1) by exact Hd.
    simpl. unfold bind. now rewrite Hi. }
  split; [|split; [exact Hl|]].
  - unfold configurationRestore. rewrite Hp. unfold bind at 1, lift.
    rewrite Hc. unfold ret at 1. unfold bind. now rewrite Hl.
  - eapply import_failure_writes_nothing; eassumption.
Qed.

(** C9.  The array [[{key:"a",v:1},{key:"a",v:2}]], restored into a store
    that answers its calls and has no entry for the key ["a"]: under
    [replace] the one entry for ["a"] ends as [{key:"a",v:2}] (the second
    record is written over the first), under [keep] it ends as
    [{key:"a",v:1}] (the second import only counts). *)
Theorem duplicate_keys_resolution
        (JSON_parse : string -> string + value) (input : string) (s : state) :
  JSON_parse input = inr (JArr [Examples.dup_first; Examples.dup_second]) ->
  healthy s = true ->
  existsb (matches Examples.key_a) (entries s) = false ->
  (exists s',
      configurationRestore query JSON_parse input (Some "replace"%string) s
        = (Returned (Examples.summary 2 "replace"), s')
      /\ entries s' = entries s ++ [Examples.dup_second]
      /\ matching Examples.key_a (entries s') = [Examples.dup_second]
      /\ calls s' =
           calls s ++
             [Count Examples.key_a; Create Examples.dup_first;
              Count Examples.key_a;
              Update Examples.key_a Examples.dup_second])
  /\ (exists s',
         configurationRestore query JSON_parse input (Some "keep"%string) s
           = (Returned (Examples.summary 2 "keep"), s')
         /\ entries s' = entries s ++ [Examples.dup_first]
         /\ matching Examples.key_a (entries s') = [Examples.dup_first]
         /\ calls s' =
              calls s ++
                [Count Examples.key_a; Create Examples.dup_first;
                 Count Examples.key_a]).
Proof.
  intros Hp Hs Ha.
  assert (Hb : existsb (matches Examples.key_a)
                 (entries s ++ [Examples.dup_first]) = true).
  { rewrite existsb_app. simpl. apply orb_true_r. }
  unfold Examples.dup_first, Examples.dup_second in *.
  split.
  - rewrite restore_runs
      with (1 := Hp) (importer := createReplaceImporter query)
      by reflexivity.
    rewrite for_of_two.
    rewrite replace_import_healthy by exact Hs.
    change (Json.lookup "key" [("key", JStr "a"); ("v", JNum 1)])
      with Examples.key_a.
    rewrite Ha.
    rewrite replace_import_healthy by (apply healthy_after; exact Hs).
    change (Json.lookup "key" [("key", JStr "a"); ("v", JNum 2)])
      with Examples.key_a.
    cbn [entries calls faults]. rewrite Hb.
    eexists. split; [reflexivity|]. cbn [entries calls].
    rewrite overwrite_last by (assumption || reflexivity).
    rewrite matching_last by (assumption || reflexivity).
    rewrite <- app_assoc. repeat split.
  - rewrite restore_runs with (1 := Hp) (importer := createKeepImporter query)
      by reflexivity.
    rewrite for_of_two.
    rewrite keep_import_healthy by exact Hs.
    change (Json.lookup "key" [("key", JStr "a"); ("v", JNum 1)])
      with Examples.key_a.
    rewrite Ha.
    rewrite keep_import_healthy by (apply healthy_after; exact Hs).
    change (Json.lookup "key" [("key", JStr "a"); ("v", JNum 2)])
      with Examples.key_a.
    cbn [entries calls faults]. rewrite Hb.
    eexists. split; [reflexivity|]. cbn [entries calls].
    rewrite matching_last by (assumption || reflexivity).
    rewrite <- app_assoc. repeat split.
Qed.

(** C10.  No importer checks the record.  For each strategy and every
    record, with or without a [key] field and whatever the type of its
    value, on a store that answers its calls: the import does not throw;
    its first store call is the query with the filter built from the
    record's [key], [undefined] when the field is missing; and when no entry
    matches, the record is created as it is, with no further call. *)
Theorem import_never_validates
        (strategy : string) (s : state) (fields : list (string * value)) :
  In strategy ["replace"; "merge"; "keep"]%string ->
  healthy s = true ->
  exists importer o s' q later,
    createImporter query strategy = inr importer
    /\ import importer (JObj fields) s = (o, s')
    /\ (forall e, o <> Thrown e)
    /\ calls s' = calls s ++ q :: later
    /\ (q = Count (Json.lookup "key" fields)
        \/ q = Find (Json.lookup "key" fields))
    /\ (existsb (matches (Json.lookup "key" fields)) (entries s) = false ->
        o = Returned tt
        /\ entries s' = entries s ++ [JObj fields]
        /\ later = [Create (JObj fields)]).
Proof.
  intros Hin Hs.
  destruct Hin as [<- | [<- | [<- | []]]].
  - eexists. do 4 eexists. split; [reflexivity|].
    rewrite replace_import_healthy by exact Hs.
    split; [reflexivity|]. cbn [entries calls].
    split; [discriminate|]. split; [reflexivity|]. split; [now left|].
    intros E. rewrite E. auto.
  - eexists.
    pose proof (@merge_import_healthy s fields Hs) as Hm. cbn zeta in Hm.
    destruct (List.find _ (entries s)) as [existing|] eqn:Ef;
      [destruct (Json.truthy existing);
       [destruct (Lodash.merge existing (JObj fields))|]|];
      do 4 eexists; (split; [reflexivity|]); rewrite Hm;
      (split; [reflexivity|]); cbn [entries calls];
      (split; [discriminate|]); (split; [reflexivity|]);
      (split; [now right|]); intros E; apply find_none in E;
      try congruence; auto.
  - eexists.
    pose proof (@keep_import_healthy s fields Hs) as Hk.
    destruct (existsb _ (entries s)) eqn:E;
      do 4 eexists; (split; [reflexivity|]); rewrite Hk;
      (split; [reflexivity|]); cbn [entries calls];
      (split; [discriminate|]); (split; [reflexivity|]);
      (split; [now left|]); intros E'; try discriminate; auto.
Qed.

(** ** The merge importer *)

Import LodashFacts.

(** What the merge importer does when the store answers its calls and holds
    an object for the record's key. *)
Lemma merge_import_existing
      (s : state) (objFields srcFields : list (string * value))
      (merged : value) :
  healthy s = true ->
  List.find (matches (Json.lookup "key" srcFields)) (entries s)
    = Some (JObj objFields) ->
  Lodash.merge (JObj objFields) (JObj srcFields) = Some merged ->
  import (createMergeImporter query) (JObj srcFields) s =
    (Returned tt,
     {| entries := overwrite (Json.lookup "key" srcFields) merged (entries s);
        calls := calls s ++
                   [Find (Json.lookup "key" srcFields);
                    Update (Json.lookup "key" srcFields) merged];
        faults := tl (tl (faults s)) |}).
Proof.
  intros Hs Hf Hm. rewrite merge_import_healthy by exact Hs.
  cbn zeta. rewrite Hf. cbn [Json.truthy]. now rewrite Hm.
Qed.


(** C3, as the code has it.  Merge importer, for a record as [JSON.parse]
    gives it whose key has an entry (both mappings), on a store that
    answers its calls, in the runs where [_.merge] gives JSON data again
    (no array left with a hole, an [undefined] item or a named property,
    no array given a [length] by the record, no array-like mapping longer
    than an array can be) and meets no property named [__proto__] in the
    record; the other runs are outside this statement.  The payload written with the update is the merged
    value.  At every depth reached through containers of the same kind on
    both sides (mappings by property, arrays by index), for every property
    or item [v] of the record's container:
    - [v] is stored as it is when it is a primitive, a mapping where the
      existing side has no value or a primitive, or an array where the
      existing side has no value, a primitive, or a mapping without a valid
      [length] or of [length] 0;
    - an array over an array is not replaced: the stored array has the
      larger of the two lengths, the existing items past the end of the
      incoming array are kept, and each incoming item is merged into the
      existing item at its index by these same rules;
    - an array over a mapping with a valid [length] is merged in the same
      way into the array of the properties the mapping names [0] to
      [length - 1];
    - a mapping over an array is merged into the array: the stored value is
      an array, each property of the mapping is named by an index and is
      merged into that item, and the items it does not name are kept.
    Existing [{key:"a", value:1}] with incoming
    [{key:"a", value:{nested:true}}] is stored with [value] equal to
    [{nested:true}]; [{length:0}] under [["x"]] is stored as [["x"]],
    [{0:"a", 1:"b", length:2}] under [["x"]] as [["x","b"]], and [[1,2]]
    under [{1:{on:true}}] as [[1,{on:true}]]. *)
Theorem merge_import_replaces_unlike
        (s : state) (objFields srcFields : list (string * value))
        (merged : value) :
  healthy s = true ->
  Json.canonical (JObj srcFields) = true ->
  List.find (matches (Json.lookup "key" srcFields)) (entries s)
    = Some (JObj objFields) ->
  Lodash.merge (JObj objFields) (JObj srcFields) = Some merged ->
  import (createMergeImporter query) (JObj srcFields) s =
    (Returned tt,
     {| entries := overwrite (Json.lookup "key" srcFields) merged (entries s);
        calls := calls s ++
                   [Find (Json.lookup "key" srcFields);
                    Update (Json.lookup "key" srcFields) merged];
        faults := tl (tl (faults s)) |})
  /\ (forall path ce cc st v,
         Json.at_steps path (JObj objFields) = Some ce ->
         Json.at_steps path (JObj srcFields) = Some cc ->
         Json.same_kind ce cc = true ->
         Json.child st cc = Some v ->
         exists r,
           Json.at_steps (path ++ [st]) merged = Some r
           /\ (Lodash.replaces (Json.child st ce) v = true -> r = v)
           /\ (forall ei ci,
                  Json.child st ce = Some (JArr ei) -> v = JArr ci ->
                  exists mi,
                    r = JArr mi
                    /\ List.length mi
                       = Nat.max (List.length ei) (List.length ci)
                    /\ (forall i,
                           List.length ci <= i ->
                           nth_error mi i = nth_error ei i)
                    /\ (forall i w,
                           nth_error ci i = Some w ->
                           Lodash.replaces (nth_error ei i) w = true ->
                           nth_error mi i = Some w))
           /\ (forall like ci n,
                  Json.child st ce = Some (JObj like) -> v = JArr ci ->
                  Lodash.arrayLikeLength like = Some n ->
                  exists mi,
                    r = JArr mi
                    /\ List.length mi
                       = Nat.max (Z.to_nat n) (List.length ci)
                    /\ (forall i,
                           List.length ci <= i -> i < Z.to_nat n ->
                           nth_error mi i
                           = Json.lookup (Json.index_name i) like)
                    /\ (forall i w,
                           nth_error ci i = Some w ->
                           Lodash.baseMergeDeep
                             (if Nat.ltb i (Z.to_nat n)
                              then Json.lookup (Json.index_name i) like
                              else None) w
                           = nth_error mi i
                           /\ (Lodash.replaces
                                 (if Nat.ltb i (Z.to_nat n)
                                  then Json.lookup (Json.index_name i) like
                                  else None) w = true ->
                               nth_error mi i = Some w)))
           /\ (forall ei co,
                  Json.child st ce = Some (JArr ei) -> v = JObj co ->
                  exists mi,
                    r = JArr mi
                    /\ List.length ei <= List.length mi
                    /\ (forall i,
                           Json.lookup (Json.index_name i) co = None ->
                           nth_error mi i = nth_error ei i)
                    /\ (forall k w,
                           Json.lookup k co = Some w ->
                           exists i,
                             Json.array_index k = Some i
                             /\ Lodash.baseMergeDeep
                                  (nth_error ei (N.to_nat i)) w
                                = nth_error mi (N.to_nat i)
                             /\ (Lodash.replaces
                                   (nth_error ei (N.to_nat i)) w = true ->
                                 nth_error mi (N.to_nat i) = Some w))))
  /\ import (createMergeImporter query) Examples.mapping_incoming
       (Examples.store_of [Examples.scalar_existing])
     = (Returned tt,
        {| entries := [Examples.mapping_incoming];
           calls := [Find Examples.key_a;
                     Update Examples.key_a Examples.mapping_incoming];
           faults := [] |})
  /\ import (createMergeImporter query) Examples.arraylike_incoming
       (Examples.store_of [Examples.empty_arraylike_existing])
     = (Returned tt,
        {| entries := [Examples.arraylike_incoming];
           calls := [Find Examples.key_a;
                     Update Examples.key_a Examples.arraylike_incoming];
           faults := [] |})
  /\ import (createMergeImporter query) Examples.arraylike_incoming
       (Examples.store_of [Examples.arraylike_existing])
     = (Returned tt,
        {| entries := [Examples.arraylike_merged];
           calls := [Find Examples.key_a;
                     Update Examples.key_a Examples.arraylike_merged];
           faults := [] |})
  /\ import (createMergeImporter query) Examples.index_mapping_incoming
       (Examples.store_of [Examples.array_existing])
     = (Returned tt,
        {| entries := [Examples.index_mapping_merged];
           calls := [Find Examples.key_a;
                     Update Examples.key_a Examples.index_mapping_merged];
           faults := [] |}).
Proof.
  intros Hs Hc Hf Hm.
  split; [now apply merge_import_existing with objFields|].
  split; [|repeat split; reflexivity].
  intros path ce cc st v He Hcc Hk Hv.
  assert (Hd : Lodash.baseMergeDeep (Some (JObj objFields)) (JObj srcFields)
               = Some merged) by exact Hm.
  assert (Hw : Json.wf (JObj srcFields) = true) by now apply canonical_wf.
  destruct (@baseMergeDeep_at_steps path _ _ _ _ _ Hw Hd eq_refl He Hcc Hk)
    as [cm [Hp Hcm]].
  assert (Hcanc : Json.canonical cc = true)
    by (eapply canonical_at_steps; eassumption).
  assert (Hcanv : Json.canonical v = true)
    by (eapply canonical_child; eassumption).
  assert (Hwc : Json.wf cc = true) by now apply canonical_wf.
  destruct (@baseMergeDeep_child st _ _ _ _ Hk Hwc Hcm Hv) as [H1 H2].
  destruct (Json.child st cm) as [r|] eqn:Er; [|contradiction].
  exists r. split; [now rewrite (@at_steps_snoc path st _ _ Hp)|].
  split; [|split; [|split]].
  - intros Hr. eapply baseMergeDeep_replaces; eassumption.
  - intros ei ci Hei ->. rewrite Hei in H1.
    eapply baseMergeDeep_array_items; eassumption.
  - intros like ci n Hlike -> Hn. rewrite Hlike in H1.
    eapply baseMergeDeep_array_like_items; eassumption.
  - intros ei co Hei ->. rewrite Hei in H1.
    eapply baseMergeDeep_indexed_items; eassumption.
Qed.

(** C3 as stated fails on arrays.  With the entry [{key:"a", list:[1,2,3]}]
    in the store, the merge importer given [{key:"a", list:[9]}] stores
    [list] as [[9,2,3]]: the incoming array [[9]] has not replaced the
    existing one. *)
Lemma merge_import_combines_arrays :
  Json.at_path ["list"%string] Examples.list_incoming = Some (JArr [JNum 9])
  /\ Json.at_path ["list"%string] Examples.list_existing
     = Some (JArr [JNum 1; JNum 2; JNum 3])
  /\ exists s' stored,
      import (createMergeImporter query) Examples.list_incoming
        (Examples.store_of [Examples.list_existing]) = (Returned tt, s')
      /\ entries s' = [stored]
      /\ Json.at_path ["list"%string] stored
         = Some (JArr [JNum 9; JNum 2; JNum 3])
      /\ Json.at_path ["list"%string] stored
         <> Json.at_path ["list"%string] Examples.list_incoming.
Proof.
  split; [reflexivity|]. split; [reflexivity|].
  do 2 eexists. split; [reflexivity|]. cbn [entries].
  split; [reflexivity|]. split; [reflexivity|]. discriminate.
Qed.

(** ** The theorems at concrete inputs *)

Lemma replace_import_overwrites_witness :
  Json.lookup "key" [("key", JStr "a"); ("v", JNum 2)] = Some (JStr "a")
  /\ healthy (Examples.store_of [Examples.dup_first]) = true
  /\ unique Examples.key_a (Examples.store_of [Examples.dup_first])
  /\ exists s',
      import (createReplaceImporter query) Examples.dup_second
        (Examples.store_of [Examples.dup_first]) = (Returned tt, s')
      /\ matching Examples.key_a (entries s') = [Examples.dup_second].
Proof.
  assert (Hu : unique Examples.key_a (Examples.store_of [Examples.dup_first]))
    by (vm_compute; lia).
  split; [reflexivity|]. split; [reflexivity|]. split; [exact Hu|].
  destruct (@replace_import_overwrites
              (Examples.store_of [Examples.dup_first])
              [("key", JStr "a"); ("v", JNum 2)] (JStr "a")
              eq_refl eq_refl Hu)
    as [s' [Hi [_ [_ [Hm _]]]]].
  exists s'. split; [exact Hi | exact Hm].
Defined.


Lemma merge_import_replaces_unlike_witness :
  healthy (Examples.store_of [Examples.list_existing]) = true
  /\ Json.canonical Examples.list_incoming = true
  /\ List.find (matches Examples.key_a) [Examples.list_existing]
     = Some Examples.list_existing
  /\ Lodash.merge Examples.list_existing Examples.list_incoming
     = Some (JObj [("key", JStr "a");
                   ("list", JArr [JNum 9; JNum 2; JNum 3])])
  /\ (exists r,
         Json.at_steps [Json.Field "list"; Json.Index 0]
           (JObj [("key", JStr "a");
                  ("list", JArr [JNum 9; JNum 2; JNum 3])]) = Some r
         /\ r = JNum 9)
  /\ (exists r mi,
         Json.at_steps [Json.Field "list"]
           (JObj [("key", JStr "a");
                  ("list", JArr [JNum 9; JNum 2; JNum 3])]) = Some r
         /\ r = JArr mi
         /\ List.length mi = 3
         /\ nth_error mi 0 = Some (JNum 9)
         /\ nth_error mi 1 = Some (JNum 2)
         /\ nth_error mi 2 = Some (JNum 3)).
Proof.
  split; [reflexivity|]. split; [reflexivity|]. split; [reflexivity|].
  split; [reflexivity|].
  destruct (@merge_import_replaces_unlike
              (Examples.store_of [Examples.list_existing])
              [("key", JStr "a"); ("list", JArr [JNum 1; JNum 2; JNum 3])]
              [("key", JStr "a"); ("list", JArr [JNum 9])]
              (JObj [("key", JStr "a");
                     ("list", JArr [JNum 9; JNum 2; JNum 3])])
              eq_refl eq_refl eq_refl eq_refl)
    as [_ [Hstep _]].
  split.
  - destruct (Hstep [Json.Field "list"]
                (JArr [JNum 1; JNum 2; JNum 3]) (JArr [JNum 9])
                (Json.Index 0) (JNum 9) eq_refl eq_refl eq_refl eq_refl)
      as [r [Hr [Hrep _]]].
    exists r. split; [exact Hr | exact (Hrep eq_refl)].
  - destruct (Hstep []
                (JObj [("key", JStr "a");
                       ("list", JArr [JNum 1; JNum 2; JNum 3])])
                (JObj [("key", JStr "a"); ("list", JArr [JNum 9])])
                (Json.Field "list") (JArr [JNum 9])
                eq_refl eq_refl eq_refl eq_refl)
      as [r [Hr [_ [Harr _]]]].
    destruct (Harr [JNum 1; JNum 2; JNum 3] [JNum 9] eq_refl eq_refl)
      as [mi [Hmi [Hlen [Hrest Hover]]]].
    exists r, mi. split; [exact Hr|]. split; [exact Hmi|].
    split; [exact Hlen|].
    split; [exact (Hover 0 (JNum 9) eq_refl eq_refl)|].
    split; [exact (Hrest 1 (le_n 1)) | exact (Hrest 2 (le_S _ _ (le_n 1)))].
Defined.

Lemma keep_import_leaves_existing_witness :
  existsb (matches Examples.key_a) [Examples.dup_first] = true
  /\ exists o s',
      import (createKeepImporter query) Examples.dup_second
        (Examples.store_of [Examples.dup_first]) = (o, s')
      /\ entries s' = [Examples.dup_first]
      /\ calls s' = [Count Examples.key_a].
Proof.
  split; [reflexivity|].
  destruct (@keep_import_leaves_existing
              (Examples.store_of [Examples.dup_first])
              [("key", JStr "a"); ("v", JNum 2)] eq_refl)
    as [o [s' [Hi [He [Hc _]]]]].
  exists o, s'. split; [exact Hi|]. split; [exact He | exact Hc].
Defined.

Lemma import_absent_creates_witness :
  In "merge"%string ["replace"; "merge"; "keep"]%string
  /\ healthy (Examples.store_of []) = true
  /\ existsb (matches Examples.key_a) [] = false
  /\ exists importer s',
      createImporter query "merge" = inr importer
      /\ import importer Examples.dup_first (Examples.store_of [])
         = (Returned tt, s')
      /\ entries s' = [Examples.dup_first].
Proof.
  assert (Hin : In "merge"%string ["replace"; "merge"; "keep"]%string)
    by (right; left; reflexivity).
  split; [exact Hin|]. split; [reflexivity|]. split; [reflexivity|].
  destruct (@import_absent_creates "merge" (Examples.store_of [])
              [("key", JStr "a"); ("v", JNum 1)] Hin eq_refl eq_refl)
    as [importer [s' [q [Hc [Hi [He _]]]]]].
  exists importer, s'. split; [exact Hc|]. split; [exact Hi | exact He].
Defined.

Lemma unknown_strategy_rejected_witness :
  ~ In "foo"%string ["replace"; "merge"; "keep"]%string
  /\ configurationRestore query
       (fun _ => inr (JArr [Examples.dup_first; Examples.dup_second]))
       "[two records]" (Some "foo"%string) CoreStore.empty
     = (Thrown (Error ("No importer available for strategy "
                         ++ dquote ++ "foo" ++ dquote)%string),
        CoreStore.empty).
Proof.
  assert (Hn : ~ In "foo"%string ["replace"; "merge"; "keep"]%string)
    by (intros [H | [H | [H | []]]]; discriminate H).
  split; [exact Hn|].
  exact (proj2 (@unknown_strategy_rejected state query
                  (fun _ => inr (JArr [Examples.dup_first;
                                       Examples.dup_second]))
                  "[two records]" "foo"
                  [Examples.dup_first; Examples.dup_second]
                  CoreStore.empty eq_refl Hn)).
Defined.

Lemma invalid_input_rejected_witness :
  (forall configs,
      (fun _ : string => @inr string value (JStr "not an array")) "text"%string
      <> inr (JArr configs))
  /\ configurationRestore query
       (fun _ => inr (JStr "not an array")) "text" (Some "keep"%string)
       CoreStore.empty
     = (Thrown (Error "Invalid input data. Expected a valid JSON array."),
        CoreStore.empty)
  /\ configurationRestore query
       (fun _ => inl "Unexpected token o in JSON at position 1"%string)
       "not json" None CoreStore.empty
     = (Thrown
          (Error ("Invalid input data: "
                    ++ "Unexpected token o in JSON at position 1"
                    ++ ". Expected a valid JSON array.")%string),
        CoreStore.empty).
Proof.
  assert (Hv : forall configs,
             (fun _ : string => @inr string value (JStr "not an array"))
               "text"%string <> inr (JArr configs))
    by (intros configs H; discriminate H).
  assert (Ht : forall configs,
             (fun _ : string =>
                @inl string value
                  "Unexpected token o in JSON at position 1"%string)
               "not json"%string <> inr (JArr configs))
    by (intros configs H; discriminate H).
  split; [exact Hv|]. split.
  - exact (@invalid_input_rejected state query
             (fun _ => inr (JStr "not an array")) "text"
             (Some "keep"%string) CoreStore.empty Hv).
  - exact (@invalid_input_rejected state query
             (fun _ => inl "Unexpected token o in JSON at position 1"%string)
             "not json" None CoreStore.empty Ht).
Defined.

Lemma batch_stops_at_first_failure_witness :
  let s := {| entries := []; calls := []; faults := [false; false; true] |} in
  let s1 := {| entries := [Examples.dup_first];
               calls := [Count Examples.key_a; Create Examples.dup_first];
               faults := [true] |} in
  let s2 := {| entries := [Examples.dup_first];
               calls := [Count Examples.key_a; Create Examples.dup_first;
                         Count Examples.key_a];
               faults := [] |} in
  let parse := fun _ : string =>
    @inr string value
      (JArr ([Examples.dup_first]
               ++ Examples.dup_second :: [Examples.nested_incoming])) in
  for_of [Examples.dup_first] (import (createReplaceImporter query)) s
    = (Returned tt, s1)
  /\ import (createReplaceImporter query) Examples.dup_second s1
     = (Thrown (StoreError "count"), s2)
  /\ configurationRestore query parse "[three records]"
       (Some "replace"%string) s
     = (Thrown (StoreError "count"), s2)
  /\ entries s2 = entries s1.
Proof.
  intros s s1 s2 parse.
  split; [reflexivity|]. split; [reflexivity|].
  destruct (@batch_stops_at_first_failure parse "[three records]" "replace"
              (createReplaceImporter query)
              [Examples.dup_first] [Examples.nested_incoming]
              Examples.dup_second s s1 s2 (StoreError "count")
              eq_refl eq_refl eq_refl eq_refl)
    as [Hr [_ [He _]]].
  split; [exact Hr | exact He].
Defined.

Lemma duplicate_keys_resolution_witness :
  let other := JObj [("key", JStr "b"); ("v", JNum 0)] in
  let parse := fun _ : string =>
    @inr string value (JArr [Examples.dup_first; Examples.dup_second]) in
  healthy (Examples.store_of [other]) = true
  /\ existsb (matches Examples.key_a) [other] = false
  /\ (exists s',
         configurationRestore query parse "[two records]"
           (Some "replace"%string) (Examples.store_of [other])
         = (Returned (Examples.summary 2 "replace"), s')
         /\ entries s' = [other; Examples.dup_second])
  /\ (exists s',
         configurationRestore query parse "[two records]"
           (Some "keep"%string) (Examples.store_of [other])
         = (Returned (Examples.summary 2 "keep"), s')
         /\ entries s' = [other; Examples.dup_first]).
Proof.
  intros other parse.
  split; [reflexivity|]. split; [reflexivity|].
  destruct (@duplicate_keys_resolution parse "[two records]"
              (Examples.store_of [other]) eq_refl eq_refl eq_refl)
    as [[sr [Hr [Her _]]] [sk [Hk [Hek _]]]].
  split; [exists sr | exists sk]; split; assumption.
Defined.

Lemma import_never_validates_witness :
  In "keep"%string ["replace"; "merge"; "keep"]%string
  /\ healthy (Examples.store_of []) = true
  /\ exists importer o s',
      createImporter query "keep" = inr importer
      /\ import importer (JObj [("name", JStr "x")]) (Examples.store_of [])
         = (o, s')
      /\ o = Returned tt
      /\ entries s' = [JObj [("name", JStr "x")]].
Proof.
  assert (Hin : In "keep"%string ["replace"; "merge"; "keep"]%string)
    by (right; right; left; reflexivity).
  split; [exact Hin|]. split; [reflexivity|].
  destruct (@import_never_validates "keep" (Examples.store_of [])
              [("name", JStr "x")] Hin eq_refl)
    as [importer [o [s' [q [later [Hc [Hi [_ [_ [_ Hcreate]]]]]]]]]].
  destruct (Hcreate eq_refl) as [Ho [He _]].
  exists importer, o, s'.
  split; [exact Hc|]. split; [exact Hi|]. split; [exact Ho | exact He].
Defined.

(** ** Reading the input: properties *)

Module InputFacts.
Import Input Batch.
Local Open Scope string_scope.

Lemma append_nil_r (a : string) : a ++ "" = a.
Proof. induction a as [|c a IH]; simpl; [reflexivity | now rewrite IH]. Qed.

Lemma append_assoc (a b c : string) : (a ++ b) ++ c = a ++ (b ++ c).
Proof. induction a as [|x a IH]; simpl; [reflexivity | now rewrite IH]. Qed.

(** The loop appends to what has been read so far. *)
Lemma drain_append (reads : list (option string)) :
  forall result, drain reads result = result ++ drain reads "".
Proof.
  induction reads as [|[chunk|] later IH]; intros result; simpl;
    try (now rewrite append_nil_r).
  destruct (String.eqb chunk ""); [now rewrite append_nil_r|].
  rewrite (IH (result ++ chunk)), (IH chunk). apply append_assoc.
Qed.

Lemma text_of_cons (ev : stdin_event) (evs : list stdin_event) :
  text_of (ev :: evs) = chunks_of ev ++ text_of evs.
Proof.
  unfold text_of. simpl. destruct (map chunks_of evs) eqn:E.
  - simpl. now rewrite append_nil_r.
  - reflexivity.
Qed.

Lemma listen_readables (before : list stdin_event) :
  forallb is_readable before = true ->
  forall later result,
    listen (before ++ later) result = listen later (result ++ text_of before).
Proof.
  induction before as [|ev before IH]; intros Hr later result.
  - simpl. now rewrite append_nil_r.
  - simpl in Hr. apply andb_true_iff in Hr as [Hev Hr].
    destruct ev; try discriminate. simpl.
    rewrite (IH Hr), text_of_cons. simpl.
    now rewrite (drain_append reads result), append_assoc.
Qed.

End InputFacts.

(** X1.  [readStdin] on a piped input: when the stream delivers [readable]
    events and then [end], the promise resolves with the chunks read, joined
    in the order they came; when it delivers an [error] first, the promise
    rejects with that error and what was read is dropped.  Whatever the
    stream delivers afterwards changes nothing. *)
Theorem readStdin_settles
        (stdin : Input.Stdin) (before later : list Input.stdin_event)
        (ev : Input.stdin_event) :
  Input.isTTY stdin = false ->
  Input.events stdin = (before ++ ev :: later)%list ->
  forallb Batch.is_readable before = true ->
  Batch.is_readable ev = false ->
  Input.readStdin stdin =
    match ev with
    | Input.StreamError e => Input.Rejected e
    | _ => Input.Resolved (Batch.text_of before)
    end.
Proof.
  intros Htty Hev Hb He. unfold Input.readStdin. rewrite Htty, Hev.
  rewrite InputFacts.listen_readables by exact Hb.
  destruct ev; [discriminate | reflexivity | reflexivity].
Qed.

(** X2.  [readStdin] never settles on a piped input that neither ends nor
    fails: with only [readable] events the promise stays pending, so the
    command waits for ever; on a terminal it resolves at once with the
    empty text, whatever the stream holds. *)
Theorem readStdin_waits_for_end (stdin : Input.Stdin) :
  forallb Batch.is_readable (Input.events stdin) = true ->
  Input.readStdin stdin =
    if Input.isTTY stdin then Input.Resolved ""%string else Input.Pending.
Proof.
  intros Hr. unfold Input.readStdin.
  destruct (Input.isTTY stdin); [reflexivity|].
  rewrite <- (app_nil_r (Input.events stdin)).
  now rewrite InputFacts.listen_readables.
Qed.

Section EntryFacts.
Variable S : Type.
Variable db : Query S.
Variable JSON_parse : string -> string + value.
Variable readFileSync : string -> exn + string.
Variable load : Async S unit.

(** X3.  The input is read before anything else.  When reading it fails
    (the file cannot be read, or, with no path or an empty one, the
    standard input fails), the command throws that error at once: the
    application is not loaded and the database stays as it was, whatever
    the strategy. *)
Theorem unreadable_input_stops
        (stdin : Input.Stdin) (file strategy : option string)
        (e : exn) (s : S) :
  match file with
  | Some ""%string | None => Input.readStdin stdin = Input.Rejected e
  | Some filePath => readFileSync filePath = inl e
  end ->
  exists run,
    Input.module_exports db JSON_parse readFileSync load stdin file strategy
      = Some run
    /\ run s = (Thrown e, s).
Proof.
  intros H. unfold Input.module_exports.
  destruct file as [filePath|].
  - destruct (String.eqb_spec filePath "") as [-> | Hne].
    + rewrite H. now eexists.
    + assert (Hf : readFileSync filePath = inl e)
        by (destruct filePath as [|c rest]; [now contradiction Hne | exact H]).
      rewrite Hf. now eexists.
  - rewrite H. now eexists.
Qed.

(** X4.  The application is loaded before the text is looked at.  For a
    text that does not parse to an array, the command fails with the input
    error only after the load, in the state the load leaves; and when the
    load itself throws, that error is the outcome and the text is never
    parsed. *)
Theorem load_precedes_validation
        (stdin : Input.Stdin) (path text : string) (strategy : option string)
        (s : S) :
  path <> ""%string ->
  readFileSync path = inr text ->
  (forall configs, JSON_parse text <> inr (JArr configs)) ->
  exists run,
    Input.module_exports db JSON_parse readFileSync load stdin (Some path)
      strategy = Some run
    /\ run s =
         match load s with
         | (Returned _, s1) =>
             (Thrown
                (Error
                   match JSON_parse text with
                   | inl message =>
                       ("Invalid input data: " ++ message
                          ++ ". Expected a valid JSON array.")%string
                   | inr _ =>
                       "Invalid input data. Expected a valid JSON array."%string
                   end), s1)
         | (Thrown e, s1) => (Thrown e, s1)
         | (Unmodelled, s1) => (Unmodelled, s1)
         end.
Proof.
  intros Hne Hf Hn. unfold Input.module_exports.
  destruct (String.eqb_spec path "") as [-> | _]; [now contradiction Hne|].
  rewrite Hf. eexists. split; [reflexivity|].
  unfold bind. destruct (load s) as [[[]| |] s1]; try reflexivity.
  unfold configurationRestore.
  destruct (JSON_parse text) as [message | v]; [reflexivity|].
  destruct v; try reflexivity. now contradiction (Hn items).
Qed.

(** X5.  A [null] element of the array stops the restore, under every
    strategy: reading its [key] throws a [TypeError] before any store call
    for it.  The records before it have been imported and stay so; the
    records after it are not looked at. *)
Theorem null_record_throws
        (input strategy : string) (importer : Importer S)
        (done rest : list value) (s s1 : S) :
  JSON_parse input = inr (JArr (done ++ JNull :: rest)) ->
  createImporter db strategy = inr importer ->
  for_of done (import importer) s = (Returned tt, s1) ->
  import importer JNull s1 = (Thrown TypeError, s1)
  /\ configurationRestore db JSON_parse input (Some strategy) s
     = (Thrown TypeError, s1).
Proof.
  intros Hp Hc Hd.
  assert (Hn : import importer JNull s1 = (Thrown TypeError, s1)).
  { unfold createImporter in Hc.
    destruct (String.eqb strategy "replace");
      [|destruct (String.eqb strategy "merge");
        [|destruct (String.eqb strategy "keep"); [|discriminate]]];
      injection Hc as <-; reflexivity. }
  split; [exact Hn|].
  rewrite restore_runs with (1 := Hp) (2 := Hc).
  rewrite for_of_app with (s1 := s1) by exact Hd.
  simpl. unfold bind. now rewrite Hn.
Qed.

(** X6.  The command returns its line only for an input that is a JSON
    array and a strategy that has an importer, after every record of the
    array has been imported in order; the line then reports the number of
    records of the array, whatever number of them was written. *)
Theorem restore_returns_only_if
        (input : string) (strategy : option string) (line : string)
        (s s' : S) :
  configurationRestore db JSON_parse input strategy s = (Returned line, s') ->
  exists configs importer,
    JSON_parse input = inr (JArr configs)
    /\ createImporter db
         (match strategy with Some name => name | None => "replace"%string end)
       = inr importer
    /\ for_of configs (import importer) s = (Returned tt, s')
    /\ line =
         Examples.summary (List.length configs)
           (match strategy with
            | Some name => name
            | None => "replace"%string
            end).
Proof.
  unfold configurationRestore.
  destruct (JSON_parse input) as [message | v]; [discriminate|].
  destruct v; try discriminate.
  unfold bind at 1, lift.
  destruct (createImporter db _) as [e | importer] eqn:Hc; [discriminate|].
  unfold ret at 1. unfold bind.
  destruct (for_of items (import importer) s) as [[[]| |] s0] eqn:Hl;
    try discriminate.
  unfold ret. intros H. injection H as <- <-.
  exists items, importer. auto.
Qed.
End EntryFacts.

(** ** The effect of one import, whatever the store answers *)

Module BatchFacts.
Import Batch.
Local Open Scope list_scope.

Lemma matches_key (k : filter) (entry : value) :
  matches k entry = true <-> entry_key entry = k.
Proof. unfold matches. apply JsonFacts.eqb_opt_eq. Qed.

Lemma matches_same_key (k k' : filter) (x y : value) :
  matches k x = true -> matches k y = true -> matches k' x = matches k' y.
Proof.
  intros Hx Hy. apply matches_key in Hx, Hy. unfold matches.
  now rewrite Hx, Hy.
Qed.

Lemma matches_get_key (conf : value) (k : filter) :
  get_key conf = inr k -> matches k conf = true.
Proof.
  intros H. apply matches_key.
  destruct conf; simpl in *; congruence.
Qed.

Lemma find_some_exists (k : filter) (es : list value) (e : value) :
  List.find (matches k) es = Some e ->
  existsb (matches k) es = true /\ matches k e = true.
Proof.
  induction es as [|x es IH]; simpl; [discriminate|].
  destruct (matches k x) eqn:E; simpl.
  - intros [= <-]. auto.
  - exact IH.
Qed.

Lemma length_overwrite (k : filter) (r : value) (es : list value) :
  List.length (overwrite k r es) = List.length es.
Proof.
  induction es as [|e es IH]; simpl; [reflexivity|].
  destruct (matches k e); simpl; [reflexivity | now rewrite IH].
Qed.

(** Overwriting an entry with a record of the same key changes the number
    of entries of no key. *)
Lemma matching_overwrite_length (k k' : filter) (r : value) (es : list value) :
  matches k r = true ->
  List.length (matching k' (overwrite k r es)) = List.length (matching k' es).
Proof.
  intros Hr. induction es as [|e es IH]; simpl; [reflexivity|].
  destruct (matches k e) eqn:E; simpl.
  - rewrite (@matches_same_key k k' r e Hr E).
    now destruct (matches k' e).
  - destruct (matches k' e); simpl; now rewrite IH.
Qed.

Lemma matching_append_length (k k' : filter) (c : value) (es : list value) :
  matches k c = true ->
  existsb (matches k) es = false ->
  (List.length (matching k' es) <= 1)%nat ->
  (List.length (matching k' (es ++ [c])) <= 1)%nat.
Proof.
  intros Hc Ha Hu. rewrite matching_app, length_app.
  apply StoreFacts.matching_none in Ha.
  unfold matching in *. cbn [List.filter].
  destruct (matches k' c) eqn:E; cbn [List.length]; [|lia].
  apply matches_key in Hc, E.
  assert (Hk : k' = k) by congruence.
  rewrite Hk, Ha. simpl. lia.
Qed.

Lemma records_app (es es' : list value) :
  records (es ++ es') = records es && records es'.
Proof. apply forallb_app. Qed.

Lemma records_overwrite (k : filter) (r : value) (es : list value) :
  Json.is_object r = true ->
  records es = true ->
  records (overwrite k r es) = true.
Proof.
  intros Hr. induction es as [|e es IH]; simpl; [reflexivity|].
  intros H. apply andb_true_iff in H as [He Hes].
  destruct (matches k e); simpl.
  - now rewrite Hr, Hes.
  - now rewrite He, IH.
Qed.

Lemma records_find (k : filter) (es : list value) (e : value) :
  records es = true ->
  List.find (matches k) es = Some e ->
  Json.is_object e = true.
Proof.
  intros Hr Hf. apply find_some in Hf as [Hin _].
  unfold records in Hr. rewrite forallb_forall in Hr. now apply Hr.
Qed.

(** How one store call ends. *)
Lemma perform_inv {A} (c : call) (run : list value -> A * list value)
      (s s' : state) (o : outcome A) :
  perform c run s = (o, s') ->
  calls s' = calls s ++ [c]
  /\ faults s' = tl (faults s)
  /\ ((o = Thrown (StoreError (operation c)) /\ entries s' = entries s)
      \/ (o = Returned (fst (run (entries s)))
          /\ entries s' = snd (run (entries s)))).
Proof.
  destruct (StoreFacts.perform_cases c run s) as [F | F]; rewrite F;
    intros H; injection H as <- <-; cbn [entries calls faults]; auto.
Qed.

End BatchFacts.

(** ** Merging the same source again *)

Module MergeFacts.
Import Json Lodash LodashFacts.
Local Open Scope list_scope.

Lemma baseMergeItems_absorb (srcItems : list value) :
  Forall (fun x => forall o r, baseMergeDeep o x = Some r ->
                               baseMergeDeep (Some r) x = Some r) srcItems ->
  forall objItems merged,
    baseMergeItems objItems srcItems = Some merged ->
    baseMergeItems merged srcItems = Some merged.
Proof.
  induction 1 as [|x xs Hx _ IH]; intros objItems merged.
  - now destruct merged.
  - rewrite baseMergeItems_cons.
    destruct (baseMergeDeep (hd_error objItems) x) as [nx|] eqn:Ex;
      [|discriminate].
    destruct (baseMergeItems (tl objItems) xs) as [l|] eqn:El;
      [|discriminate].
    cbn [option_map]. intros [= <-]. rewrite baseMergeItems_cons.
    cbn [hd_error tl]. rewrite (Hx _ _ Ex). now rewrite (IH _ _ El).
Qed.

Lemma baseMergeSlots_absorb (srcItems : list value) :
  Forall (fun x => forall o r, baseMergeDeep o x = Some r ->
                               baseMergeDeep (Some r) x = Some r) srcItems ->
  forall objSlots merged,
    baseMergeSlots objSlots srcItems = Some merged ->
    baseMergeItems merged srcItems = Some merged.
Proof.
  induction 1 as [|x xs Hx _ IH]; intros objSlots merged.
  - reflexivity.
  - rewrite baseMergeSlots_cons.
    destruct (baseMergeDeep _ x) as [nx|] eqn:Ex; [|discriminate].
    destruct (baseMergeSlots (tl objSlots) xs) as [l|] eqn:El;
      [|discriminate].
    cbn [option_map]. intros [= <-]. rewrite baseMergeItems_cons.
    cbn [hd_error tl]. rewrite (Hx _ _ Ex). now rewrite (IH _ _ El).
Qed.

Lemma baseMergeIndexed_absorb (srcFields : list (string * value)) :
  distinct (names srcFields) = true ->
  Forall (fun kv => forall o r, baseMergeDeep o (snd kv) = Some r ->
                                baseMergeDeep (Some r) (snd kv) = Some r)
    srcFields ->
  forall objItems merged,
    baseMergeIndexed objItems srcFields = Some merged ->
    baseMergeIndexed merged srcFields = Some merged.
Proof.
  intros Hd H. induction H as [|[k x] xs Hx _ IH]; intros objItems merged.
  - reflexivity.
  - rewrite !baseMergeIndexed_cons. simpl in Hd, Hx.
    apply andb_true_iff in Hd as [Hk Hd]. apply negb_true_iff in Hk.
    destruct (array_index k) as [j|] eqn:Ej; [|discriminate].
    destruct (N.leb_spec j (N.of_nat (List.length objItems))) as [Hj|];
      [|discriminate].
    destruct (baseMergeDeep (nth_error objItems (N.to_nat j)) x) as [nv|]
      eqn:Ex; [|discriminate].
    intros Hm.
    assert (Hj' : N.to_nat j <= List.length objItems) by lia.
    destruct (baseMergeIndexed_keeps _ _ Hm) as [Hlen Hkeep].
    rewrite length_set_item in Hlen by exact Hj'.
    assert (Hl : nth_error merged (N.to_nat j) = Some nv).
    { rewrite Hkeep.
      - now apply nth_error_set_item_same.
      - rewrite <- (array_index_name _ Ej). now apply lookup_not_named. }
    assert (Hle : (j <=? N.of_nat (List.length merged))%N = true)
      by (apply N.leb_le; lia).
    rewrite Hle, Hl, (Hx _ _ Ex), (set_item_same _ _ Hl).
    exact (IH Hd _ _ Hm).
Qed.

Lemma baseMergeFields_absorb (srcFields : list (string * value)) :
  distinct (names srcFields) = true ->
  Forall (fun kv => forall o r, baseMergeDeep o (snd kv) = Some r ->
                                baseMergeDeep (Some r) (snd kv) = Some r)
    srcFields ->
  forall objFields merged,
    baseMergeFields objFields srcFields = Some merged ->
    baseMergeFields merged srcFields = Some merged.
Proof.
  intros Hd H. induction H as [|[k x] xs Hx _ IH]; intros objFields merged.
  - reflexivity.
  - rewrite !baseMergeFields_cons. simpl in Hd, Hx.
    apply andb_true_iff in Hd as [Hk Hd]. apply negb_true_iff in Hk.
    destruct (String.eqb k "__proto__"); [discriminate|].
    destruct (baseMergeDeep (lookup k objFields) x) as [nv|] eqn:Ex;
      [|discriminate].
    intros Hm.
    assert (Hl : lookup k merged = Some nv).
    { rewrite (@baseMergeFields_absent k xs (lookup_not_named _ _ Hk) _ _ Hm).
      apply lookup_assign_same. }
    rewrite Hl, (Hx _ _ Ex), (assign_same _ _ Hl).
    exact (IH Hd _ _ Hm).
Qed.

(** Merging a source into the result of merging it changes nothing. *)
Lemma baseMergeDeep_absorb (v : value) :
  wf v = true ->
  forall o r, baseMergeDeep o v = Some r -> baseMergeDeep (Some r) v = Some r.
Proof.
  induction v using value_nested_ind; intros Hw o r;
    try (simpl; now intros [= <-]).
  - (* arrays *)
    assert (Hi : forall objItems merged,
               baseMergeItems objItems items = Some merged ->
               baseMergeItems merged items = Some merged).
    { apply baseMergeItems_absorb. simpl in Hw.
      rewrite forallb_forall in Hw. rewrite Forall_forall in H |- *.
      intros x Hin. apply H; auto. }
    assert (Hgoal : forall oi, option_map JArr (baseMergeItems oi items)
                               = Some r ->
                               baseMergeDeep (Some r) (JArr items) = Some r).
    { intros oi Hm. destruct (baseMergeItems oi items) as [m|] eqn:Em;
        [|discriminate]. injection Hm as <-. simpl.
      change (baseMergeItems_with baseMergeDeep m items)
        with (baseMergeItems m items).
      now rewrite (Hi _ _ Em). }
    destruct o as [[]|]; simpl;
      try (intros Hm; now apply (Hgoal [])).
    + intros Hm. now apply (Hgoal items0).
    + destruct (arrayLikeLength fields) as [n|];
        [|intros Hm; now apply (Hgoal [])].
      destruct (n <=? MAX_ARRAY_LENGTH)%Z; [|discriminate].
      change (baseMergeSlots_with baseMergeDeep
                (copyArray fields (Z.to_nat n)) items)
        with (baseMergeSlots (copyArray fields (Z.to_nat n)) items).
      destruct (baseMergeSlots _ items) as [m|] eqn:Em; [|discriminate].
      intros [= <-].
      change (option_map JArr (baseMergeItems m items) = Some (JArr m)).
      rewrite (@baseMergeSlots_absorb items)
        with (objSlots := copyArray fields (Z.to_nat n)) (merged := m);
        [reflexivity | | exact Em].
      simpl in Hw. rewrite forallb_forall in Hw.
      rewrite Forall_forall in H |- *.
      intros x Hin. apply H; auto.
  - (* objects *)
    simpl in Hw. apply andb_true_iff in Hw as [Hd Hw].
    assert (Hf : forall objFields merged,
               baseMergeFields objFields fields = Some merged ->
               baseMergeFields merged fields = Some merged).
    { apply baseMergeFields_absorb; [exact Hd|].
      rewrite forallb_forall in Hw. rewrite Forall_forall in H |- *.
      intros kv Hin. apply H; auto. }
    assert (Hgoal : forall ofs, option_map JObj (baseMergeFields ofs fields)
                                = Some r ->
                                baseMergeDeep (Some r) (JObj fields) = Some r).
    { intros ofs Hm. destruct (baseMergeFields ofs fields) as [m|] eqn:Em;
        [|discriminate]. injection Hm as <-. simpl.
      change (baseMergeFields_with baseMergeDeep m fields)
        with (baseMergeFields m fields).
      now rewrite (Hf _ _ Em). }
    destruct o as [[]|]; simpl;
      try (intros Hm; now apply (Hgoal [])).
    + change (baseMergeIndexed_with baseMergeDeep items fields)
        with (baseMergeIndexed items fields).
      destruct (baseMergeIndexed items fields) as [m|] eqn:Em;
        [|discriminate].
      intros [= <-].
      change (option_map JArr (baseMergeIndexed m fields) = Some (JArr m)).
      rewrite (@baseMergeIndexed_absorb fields Hd)
        with (objItems := items) (merged := m); [reflexivity | | exact Em].
      rewrite forallb_forall in Hw. rewrite Forall_forall in H |- *.
      intros kv Hin. apply H; auto.
    + intros Hm. now apply (Hgoal fields0).
Qed.

(** Merging a value into itself changes nothing. *)
Lemma baseMergeDeep_self (v : value) :
  wf v = true ->
  forall r, baseMergeDeep (Some v) v = Some r -> r = v.
Proof.
  induction v using value_nested_ind; intros Hw r;
    try (simpl; now intros [= <-]).
  - simpl. fold (baseMergeItems items items).
    assert (Hi : forall l, baseMergeItems items items = Some l -> l = items).
    { simpl in Hw. clear r.
      induction H as [|x xs Hx _ IH]; intros l.
      - now intros [= <-].
      - rewrite baseMergeItems_cons. simpl in Hw |- *.
        apply andb_true_iff in Hw as [Hwx Hws].
        destruct (baseMergeDeep (Some x) x) as [nx|] eqn:Ex; [|discriminate].
        destruct (baseMergeItems xs xs) as [l'|]; [|discriminate].
        simpl. intros [= <-]. f_equal; [now apply Hx | now apply IH]. }
    destruct (baseMergeItems items items) as [l|]; [|discriminate].
    simpl. intros [= <-]. f_equal. now apply Hi.
  - simpl. fold (baseMergeFields fields fields).
    simpl in Hw. apply andb_true_iff in Hw as [Hd Hw].
    assert (Hf : forall obj m,
               (forall k v, lookup k fields = Some v ->
                            lookup k obj = Some v) ->
               baseMergeFields obj fields = Some m -> m = obj).
    { clear r. induction H as [|[k x] xs Hx _ IH]; intros obj m Hobj.
      - simpl. now intros [= <-].
      - rewrite baseMergeFields_cons. simpl in Hd, Hw, Hx.
        apply andb_true_iff in Hd as [Hk Hd]. apply negb_true_iff in Hk.
        apply andb_true_iff in Hw as [Hwx Hws].
        destruct (String.eqb k "__proto__"); [discriminate|].
        assert (Hkx : lookup k obj = Some x).
        { apply Hobj. simpl. now rewrite String.eqb_refl. }
        rewrite Hkx.
        destruct (baseMergeDeep (Some x) x) as [nx|] eqn:Ex; [|discriminate].
        rewrite (Hx Hwx nx eq_refl), (assign_same _ _ Hkx).
        apply IH; try assumption.
        intros k' v Hv. apply Hobj. simpl.
        destruct (String.eqb k' k) eqn:E; [|exact Hv].
        apply String.eqb_eq in E. subst k'.
        rewrite (lookup_not_named _ _ Hk) in Hv. discriminate. }
    destruct (baseMergeFields fields fields) as [m|] eqn:Em; [|discriminate].
    simpl. intros [= <-]. f_equal. now apply (Hf fields m).
Qed.

(** [_.merge(_.merge(object, source), source)] is [_.merge(object, source)],
    for mappings. *)
Lemma merge_absorb (objFields srcFields : list (string * value))
      (merged : value) :
  wf (JObj srcFields) = true ->
  merge (JObj objFields) (JObj srcFields) = Some merged ->
  merge merged (JObj srcFields) = Some merged.
Proof.
  intros Hw Hm.
  assert (Hd : baseMergeDeep (Some (JObj objFields)) (JObj srcFields)
               = Some merged) by exact Hm.
  pose proof (@baseMergeDeep_absorb (JObj srcFields) Hw _ _ Hd) as Ha.
  simpl in Hm.
  destruct (baseMergeFields objFields srcFields) as [m|]; [|discriminate].
  injection Hm as <-. exact Ha.
Qed.

(** The names of the merged object are those of the destination and those of
    the source. *)
Lemma baseMergeFields_names (srcFields : list (string * value)) :
  forall objFields merged,
    baseMergeFields objFields srcFields = Some merged ->
    forall f,
      lookup f merged <> None
      <-> (lookup f objFields <> None \/ lookup f srcFields <> None).
Proof.
  induction srcFields as [|[k x] xs IH]; intros objFields merged.
  - simpl. intros [= <-] f. tauto.
  - rewrite baseMergeFields_cons.
    destruct (String.eqb k "__proto__"); [discriminate|].
    destruct (baseMergeDeep (lookup k objFields) x) as [nv|]; [|discriminate].
    intros Hm f. rewrite (IH _ _ Hm f). simpl.
    destruct (String.eqb f k) eqn:E.
    + apply String.eqb_eq in E. subst f. rewrite lookup_assign_same.
      split; intros _; [right | left]; discriminate.
    + now rewrite lookup_assign_other.
Qed.

(** *** Property order *)

Lemma names_replace (k : string) (v : value) fields :
  names (replace k v fields) = names fields.
Proof.
  induction fields as [|[l w] rest IH]; simpl; [reflexivity|].
  destruct (String.eqb k l); simpl; [reflexivity | now rewrite IH].
Qed.

Lemma forallb_names_insert_index (P : string -> bool) (i : N) (k : string)
      (v : value) fields :
  forallb P (names (insert_index i k v fields))
  = P k && forallb P (names fields).
Proof.
  induction fields as [|[l w] rest IH]; simpl; [reflexivity|].
  destruct (goes_before i l); simpl; [reflexivity|].
  rewrite IH. now destruct (P l), (P k).
Qed.

Lemma filter_names_insert_index (P : string -> bool) (i : N) (k : string)
      (v : value) fields :
  P k = false ->
  List.filter P (names (insert_index i k v fields))
  = List.filter P (names fields).
Proof.
  intros Hk. induction fields as [|[l w] rest IH]; simpl.
  - now rewrite Hk.
  - destruct (goes_before i l); simpl.
    + now rewrite Hk.
    + now rewrite IH.
Qed.

Lemma goes_before_trans (i j : N) (l : string) :
  (i <? j)%N = true -> goes_before j l = true -> goes_before i l = true.
Proof.
  unfold goes_before. destruct (array_index l) as [n|]; [|reflexivity].
  rewrite !N.ltb_lt. lia.
Qed.

Lemma ordered_names_snoc (k : string) (ks : list string) :
  array_index k = None ->
  ordered_names ks = true -> ordered_names (ks ++ [k]) = true.
Proof.
  intros Hk. induction ks as [|l ks IH]; simpl.
  - now rewrite Hk.
  - intros H. apply andb_true_iff in H as [Hl Hks].
    rewrite (IH Hks), andb_true_r.
    destruct (array_index l) as [j|]; rewrite forallb_app, Hl; simpl.
    + unfold goes_before. now rewrite Hk.
    + now rewrite Hk.
Qed.

Lemma insert_index_ordered (i : N) (k : string) (v : value) fields :
  array_index k = Some i ->
  lookup k fields = None ->
  ordered_names (names fields) = true ->
  ordered_names (names (insert_index i k v fields)) = true.
Proof.
  intros Hk. induction fields as [|[l w] rest IH]; simpl.
  - now rewrite Hk.
  - destruct (String.eqb_spec k l) as [-> | Hne]; [discriminate|].
    intros Hl Ho. apply andb_true_iff in Ho as [Hhead Hrest].
    destruct (goes_before i l) eqn:Eg; simpl.
    + rewrite Hk, Eg, Hrest, andb_true_r. simpl.
      rewrite andb_true_iff. split; [|exact Hhead].
      unfold goes_before in Eg.
      destruct (array_index l) as [j|].
      * rewrite forallb_forall in Hhead |- *. intros x Hx.
        exact (@goes_before_trans i j x Eg (Hhead x Hx)).
      * rewrite forallb_forall in Hhead |- *. intros x Hx.
        specialize (Hhead x Hx). unfold goes_before.
        now destruct (array_index x).
    + rewrite (IH Hl Hrest), andb_true_r.
      unfold goes_before in Eg.
      destruct (array_index l) as [j|] eqn:El; [|discriminate].
      rewrite forallb_names_insert_index, Hhead, andb_true_r.
      unfold goes_before. rewrite Hk. apply N.ltb_lt.
      apply N.ltb_ge in Eg.
      assert (j <> i) by (intros ->; apply Hne;
                          exact (array_index_inj _ _ Hk El)).
      lia.
Qed.

(** An assignment keeps an object in property order. *)
Lemma assign_ordered_names (k : string) (v : value) fields :
  ordered_names (names fields) = true ->
  ordered_names (names (assign k v fields)) = true.
Proof.
  intros Ho. unfold assign, insert.
  destruct (lookup k fields) eqn:El; [now rewrite names_replace|].
  destruct (array_index k) as [i|] eqn:Ek.
  - now apply insert_index_ordered.
  - unfold names. rewrite map_app. now apply ordered_names_snoc.
Qed.

(** An assignment keeps the order of the properties it does not create. *)
Lemma filter_names_assign (P : string -> bool) (k : string) (v : value)
      fields :
  (lookup k fields = None -> P k = false) ->
  List.filter P (names (assign k v fields)) = List.filter P (names fields).
Proof.
  intros Hk. unfold assign, insert.
  destruct (lookup k fields) eqn:El; [now rewrite names_replace|].
  specialize (Hk eq_refl).
  destruct (array_index k) as [i|].
  - now apply filter_names_insert_index.
  - unfold names. rewrite map_app, List.filter_app. simpl.
    rewrite Hk. now rewrite app_nil_r.
Qed.

Lemma baseMergeFields_ordered_names (srcFields : list (string * value)) :
  forall objFields merged,
    ordered_names (names objFields) = true ->
    baseMergeFields objFields srcFields = Some merged ->
    ordered_names (names merged) = true.
Proof.
  induction srcFields as [|[k x] xs IH]; intros objFields merged Ho.
  - now intros [= <-].
  - rewrite baseMergeFields_cons.
    destruct (String.eqb k "__proto__"); [discriminate|].
    destruct (baseMergeDeep (lookup k objFields) x) as [nv|]; [|discriminate].
    apply IH. now apply assign_ordered_names.
Qed.

Lemma lookup_named (k : string) fields :
  In k (names fields) -> lookup k fields <> None.
Proof.
  induction fields as [|[l w] rest IH]; simpl; [tauto|].
  intros [-> | Hin].
  - now rewrite String.eqb_refl.
  - destruct (String.eqb k l); [discriminate | now apply IH].
Qed.

Lemma existsb_eqb_In (k : string) (ks : list string) :
  existsb (String.eqb k) ks = true <-> In k ks.
Proof.
  rewrite existsb_exists. split.
  - intros [x [Hin E]]. apply String.eqb_eq in E. now subst x.
  - intros Hin. exists k. split; [exact Hin | apply String.eqb_refl].
Qed.

(** The properties of the destination keep their relative order. *)
Lemma baseMergeFields_keeps_order (names0 : list string)
      (srcFields : list (string * value)) :
  forall objFields merged,
    (forall k, In k names0 -> lookup k objFields <> None) ->
    baseMergeFields objFields srcFields = Some merged ->
    List.filter (fun k => existsb (String.eqb k) names0) (names merged)
    = List.filter (fun k => existsb (String.eqb k) names0) (names objFields).
Proof.
  induction srcFields as [|[k x] xs IH]; intros objFields merged Hin.
  - now intros [= <-].
  - rewrite baseMergeFields_cons.
    destruct (String.eqb k "__proto__"); [discriminate|].
    destruct (baseMergeDeep (lookup k objFields) x) as [nv|]; [|discriminate].
    intros Hm.
    assert (Hin' : forall l, In l names0 ->
                             lookup l (assign k nv objFields) <> None)
      by (intros l Hl; apply lookup_assign_present; now apply Hin).
    rewrite (IH _ _ Hin' Hm).
    apply filter_names_assign. intros Hk.
    destruct (existsb (String.eqb k) names0) eqn:E; [|reflexivity].
    apply existsb_eqb_In in E. now apply Hin in E.
Qed.

Lemma filter_own_names (ks : list string) :
  List.filter (fun k => existsb (String.eqb k) ks) ks = ks.
Proof.
  assert (H : forall l, (forall k, In k l -> In k ks) ->
                        List.filter (fun k => existsb (String.eqb k) ks) l = l).
  { induction l as [|x l IH]; intros Hl; simpl; [reflexivity|].
    assert (E : existsb (String.eqb x) ks = true)
      by (apply existsb_eqb_In, Hl; now left).
    rewrite E, IH; [reflexivity|]. intros k Hk. apply Hl. now right. }
  now apply H.
Qed.

End MergeFacts.

(** ** One import, whatever the store answers *)

Module ImportFacts.
Import Batch BatchFacts.
Local Open Scope list_scope.

(** The merged record is still a mapping addressed by the same key. *)
Lemma merge_keeps_key (objFields srcFields : list (string * value))
      (merged : value) :
  Json.wf (JObj srcFields) = true ->
  matches (Json.lookup "key" srcFields) (JObj objFields) = true ->
  Lodash.merge (JObj objFields) (JObj srcFields) = Some merged ->
  matches (Json.lookup "key" srcFields) merged = true
  /\ Json.is_object merged = true.
Proof.
  intros Hw Hk. simpl.
  destruct (Lodash.baseMergeFields objFields srcFields) as [m|] eqn:Em;
    [|discriminate].
  intros [= <-]. split; [|reflexivity].
  apply matches_key in Hk. apply matches_key. simpl in Hk |- *.
  simpl in Hw. apply andb_true_iff in Hw as [Hd Hw].
  destruct (Json.lookup "key" srcFields) as [v|] eqn:Ev.
  - destruct (@LodashFacts.baseMergeFields_present "key" v srcFields Hd Ev
                _ _ Em) as [H1 H2].
    rewrite Hk in H1.
    destruct (Json.lookup "key" m) as [r|]; [|contradiction].
    f_equal. apply MergeFacts.baseMergeDeep_self; [|exact H1].
    rewrite forallb_forall in Hw.
    exact (Hw _ (lookup_In _ _ Ev)).
  - rewrite (@LodashFacts.baseMergeFields_absent "key" srcFields Ev _ _ Em).
    exact Hk.
Qed.

Ltac open_import Hc :=
  unfold createImporter in Hc;
  match type of Hc with
  | context [String.eqb ?strategy "replace"] =>
      destruct (String.eqb strategy "replace");
      [|destruct (String.eqb strategy "merge");
        [|destruct (String.eqb strategy "keep"); [|discriminate Hc]]]
  end;
  injection Hc as <-;
  unfold import, createReplaceImporter, createMergeImporter,
    createKeepImporter, bind, lift, ret, throw, unmodelled,
    query, count, find, create, update, perform.

Ltac settle := intros H; injection H as <- <-; cbn [entries calls faults].

(** An import leaves the entries as they are, adds the record at the end,
    or overwrites one entry; it makes at most two store calls. *)
Lemma import_effect_any
      (strategy : string) (importer : Importer state)
      (conf : value) (s s' : state) (o : outcome unit) :
  createImporter query strategy = inr importer ->
  import importer conf s = (o, s') ->
  (exists l, calls s' = calls s ++ l /\ (List.length l <= 2)%nat)
  /\ (entries s' = entries s
      \/ entries s' = entries s ++ [conf]
      \/ exists k r, entries s' = overwrite k r (entries s)).
Proof.
  intros Hc. open_import Hc;
    (destruct (get_key_cases conf) as [[_ ->] | [k ->]];
     [settle; split; [exists []; rewrite app_nil_r; auto | auto]|]).
  - destruct (faults s) as [|[] later]; cbn [fst snd entries calls faults];
      try (destruct (0 <? _)%Z; cbn [entries calls faults];
           try destruct later as [|[] later']);
      settle; rewrite <- ?app_assoc;
      (split; [eexists; split; [reflexivity | simpl; lia] | eauto]).
  - destruct (faults s) as [|[] later]; cbn [fst snd entries calls faults];
      try (destruct (List.find _ _) as [v|];
           [destruct (Json.truthy v); [destruct (Lodash.merge v conf)|]|];
           cbn [entries calls faults];
           try destruct later as [|[] later']);
      settle; rewrite <- ?app_assoc;
      (split; [eexists; split; [reflexivity | simpl; lia] | eauto]).
  - destruct (faults s) as [|[] later]; cbn [fst snd entries calls faults];
      try (destruct (0 <? _)%Z; cbn [entries calls faults];
           try destruct later as [|[] later']);
      settle; rewrite <- ?app_assoc; rewrite ?app_nil_r;
      (split; [eexists; split; [reflexivity | simpl; lia] | eauto]).
Qed.

(** On a store of mappings, for a parsed mapping: the entries stay, or the
    record is added for a key that had no entry, or the entry of its key is
    overwritten by a mapping of the same key. *)
Lemma import_effect_records
      (strategy : string) (importer : Importer state)
      (fields : list (string * value)) (s s' : state) (o : outcome unit) :
  createImporter query strategy = inr importer ->
  Json.wf (JObj fields) = true ->
  records (entries s) = true ->
  import importer (JObj fields) s = (o, s') ->
  entries s' = entries s
  \/ (existsb (matches (Json.lookup "key" fields)) (entries s) = false
      /\ entries s' = entries s ++ [JObj fields])
  \/ (exists r,
         matches (Json.lookup "key" fields) r = true
         /\ Json.is_object r = true
         /\ entries s' = overwrite (Json.lookup "key" fields) r (entries s)).
Proof.
  intros Hc Hw Hr.
  pose proof (StoreFacts.matches_own_key fields) as Hown.
  open_import Hc; cbn [get_key].
  - destruct (faults s) as [|[] later]; cbn [fst snd entries calls faults];
      try (rewrite StoreFacts.count_positive;
           destruct (existsb _ (entries s)) eqn:E;
           cbn [entries calls faults];
           try destruct later as [|[] later']);
      settle; eauto 7.
  - destruct (faults s) as [|[] later]; cbn [fst snd entries calls faults];
      try (destruct (List.find _ (entries s)) as [v|] eqn:Ef;
           [pose proof (records_find _ _ Hr Ef) as Hv;
            destruct v; try discriminate Hv; cbn [Json.truthy];
            destruct (find_some_exists _ _ Ef) as [_ Hm];
            destruct (Lodash.merge (JObj fields0) (JObj fields)) as [r|] eqn:Em;
            [destruct (merge_keeps_key _ _ Hw Hm Em) as [Hkr Hor]|]
           | apply StoreFacts.find_none in Ef];
           cbn [entries calls faults];
           try destruct later as [|[] later']);
      settle; eauto 7.
  - destruct (faults s) as [|[] later]; cbn [fst snd entries calls faults];
      try (rewrite StoreFacts.count_positive;
           destruct (existsb _ (entries s)) eqn:E;
           cbn [entries calls faults];
           try destruct later as [|[] later']);
      settle; eauto 7.
Qed.

(** The keep importer adds the record for a key that had no entry, or
    leaves the entries as they are; it never calls [update]. *)
Lemma keep_import_effect (conf : value) (s s' : state) (o : outcome unit) :
  import (createKeepImporter query) conf s = (o, s') ->
  (entries s' = entries s
   \/ (exists k, get_key conf = inr k
                 /\ existsb (matches k) (entries s) = false
                 /\ entries s' = entries s ++ [conf]))
  /\ exists l,
      calls s' = calls s ++ l
      /\ forallb (fun c => negb (is_update c)) l = true.
Proof.
  unfold import, createKeepImporter, bind, lift, ret, throw,
    query, count, find, create, update, perform.
  destruct (get_key_cases conf) as [[_ ->] | [k Hk]]; [|rewrite Hk].
  - settle. split; [auto|]. exists []. now rewrite app_nil_r.
  - destruct (faults s) as [|[] later]; cbn [fst snd entries calls faults];
      try (rewrite StoreFacts.count_positive;
           destruct (existsb _ (entries s)) eqn:E;
           cbn [entries calls faults];
           try destruct later as [|[] later']);
      settle; rewrite <- ?app_assoc;
      (split; [eauto 6 | eexists; split; [reflexivity | reflexivity]]).
Qed.

End ImportFacts.

(** ** The whole batch *)

Import Batch BatchFacts ImportFacts.

(** What holds before the loop and is kept by every import holds after the
    loop, however it ends. *)
Lemma for_of_invariant {S A} (P : S -> Prop) (body : A -> Async S unit)
      (xs : list A) :
  (forall x s o s', In x xs -> P s -> body x s = (o, s') -> P s') ->
  forall s o s', P s -> for_of xs body s = (o, s') -> P s'.
Proof.
  induction xs as [|x xs IH]; intros Hstep s o s' Hs.
  - simpl. unfold ret. now intros [= _ <-].
  - simpl. unfold bind. destruct (body x s) as [o1 s1] eqn:E.
    assert (H1 : P s1) by (eapply Hstep; [now left | exact Hs | exact E]).
    assert (Hstep' : forall y t o' t', In y xs -> P t ->
                                       body y t = (o', t') -> P t')
      by (intros y t o' t' Hin; apply Hstep; now right).
    destruct o1 as [[]| |].
    + now apply IH.
    + now intros [= _ <-].
    + now intros [= _ <-].
Qed.

(** The state the command ends in is the state its loop ends in. *)
Lemma restore_state {S} (db : Query S) (JSON_parse : string -> string + value)
      (input strategy : string) (configs : list value)
      (importer : Importer S) (s s' : S) (o : outcome string) :
  JSON_parse input = inr (JArr configs) ->
  createImporter db strategy = inr importer ->
  configurationRestore db JSON_parse input (Some strategy) s = (o, s') ->
  exists o', for_of configs (import importer) s = (o', s').
Proof.
  intros Hp Hc. rewrite restore_runs with (1 := Hp) (2 := Hc).
  destruct (for_of configs (import importer) s) as [[[]| |] s0];
    intros [= _ <-]; eauto.
Qed.

Lemma parsed_records_In (configs : list value) (conf : value) :
  parsed_records configs = true ->
  In conf configs ->
  exists fields, conf = JObj fields /\ Json.wf (JObj fields) = true.
Proof.
  unfold parsed_records. rewrite forallb_forall. intros H Hin.
  apply H in Hin. apply andb_true_iff in Hin as [Ho Hw].
  destruct conf; try discriminate. eauto.
Qed.

(** X7.  The restore keeps the store's invariant.  On a store of mappings
    with at most one entry per key, restoring an array of mappings under
    any of the three strategies leaves a store of mappings with at most one
    entry per key, however the restore ends: with its line, or part-way on
    a store call that fails. *)
Theorem restore_keeps_one_per_key
        (JSON_parse : string -> string + value) (input strategy : string)
        (importer : Importer state) (configs : list value)
        (s s' : state) (o : outcome string) :
  JSON_parse input = inr (JArr configs) ->
  createImporter query strategy = inr importer ->
  parsed_records configs = true ->
  records (entries s) = true ->
  one_per_key s ->
  configurationRestore query JSON_parse input (Some strategy) s = (o, s') ->
  one_per_key s' /\ records (entries s') = true.
Proof.
  intros Hp Hc Hconfigs Hr Hu Hrun.
  destruct (@restore_state _ _ _ _ _ _ _ _ _ _ Hp Hc Hrun) as [o' Hloop].
  revert Hloop.
  apply (@for_of_invariant state value
           (fun t => one_per_key t /\ records (entries t) = true));
    [|now split].
  clear - Hc Hconfigs. intros conf t o1 t' Hin [Hu Hr] Hi.
  destruct (@parsed_records_In _ _ Hconfigs Hin) as [fields [-> Hw]].
  destruct (@import_effect_records _ _ _ _ _ _ Hc Hw Hr Hi)
    as [He | [[Ha He] | [r [Hkr [Hor He]]]]].
  - unfold one_per_key, unique in *. rewrite He. now split.
  - split.
    + intros k'. unfold unique. rewrite He.
      apply matching_append_length
        with (k := Json.lookup "key" fields);
        [apply StoreFacts.matches_own_key | exact Ha | apply Hu].
    + rewrite He, records_app, Hr. reflexivity.
  - split.
    + intros k'. unfold unique. rewrite He.
      rewrite matching_overwrite_length by exact Hkr. apply Hu.
    + rewrite He. now apply records_overwrite.
Qed.

Lemma find_app_some (k : filter) (es later : list value) (e : value) :
  List.find (matches k) es = Some e ->
  List.find (matches k) (es ++ later) = Some e.
Proof.
  induction es as [|x es IH]; simpl; [discriminate|].
  destruct (matches k x); [easy | exact IH].
Qed.

(** X8.  Under [keep] the restore never touches what the store holds.
    However the restore ends, the entries the store had are all still
    there, unchanged and in place, followed by records of the array that
    were added; no [update] call is ever made; and a key that had an entry
    is still answered by that entry. *)
Theorem keep_restore_preserves_entries
        (JSON_parse : string -> string + value) (input : string)
        (configs : list value) (s s' : state) (o : outcome string) :
  JSON_parse input = inr (JArr configs) ->
  configurationRestore query JSON_parse input (Some "keep"%string) s
    = (o, s') ->
  exists added made,
    entries s' = entries s ++ added
    /\ incl added configs
    /\ calls s' = calls s ++ made
    /\ forallb (fun c => negb (is_update c)) made = true
    /\ forall k e,
        List.find (matches k) (entries s) = Some e ->
        List.find (matches k) (entries s') = Some e.
Proof.
  intros Hp Hrun.
  destruct (@restore_state _ query _ _ "keep" _ (createKeepImporter query)
              _ _ _ Hp eq_refl Hrun) as [o' Hloop].
  assert (H : exists added made,
             entries s' = entries s ++ added
             /\ incl added configs
             /\ calls s' = calls s ++ made
             /\ forallb (fun c => negb (is_update c)) made = true).
  { revert Hloop.
    apply (@for_of_invariant state value
             (fun t => exists added made,
                  entries t = entries s ++ added
                  /\ incl added configs
                  /\ calls t = calls s ++ made
                  /\ forallb (fun c => negb (is_update c)) made = true)).
    - intros conf t o1 t' Hin [added [made [He [Hi [Hc Hm]]]]] Hstep.
      destruct (keep_import_effect _ _ Hstep)
        as [Hent [l [Hl Hno]]].
      exists (if Nat.eqb (List.length (entries t')) (List.length (entries t))
              then added else added ++ [conf]), (made ++ l).
      repeat split.
      + destruct Hent as [-> | [k [_ [_ ->]]]].
        * now rewrite Nat.eqb_refl.
        * rewrite length_app. simpl.
          destruct (Nat.eqb_spec (List.length (entries t) + 1)
                      (List.length (entries t))) as [E | _]; [lia|].
          now rewrite He, app_assoc.
      + destruct (Nat.eqb _ _); [exact Hi|].
        apply incl_app; [exact Hi|]. intros x [<- | []]. exact Hin.
      + now rewrite Hl, Hc, app_assoc.
      + rewrite forallb_app, Hm, Hno. reflexivity.
    - exists [], []. rewrite !app_nil_r. repeat split.
      intros x []. }
  destruct H as [added [made [He [Hi [Hc Hm]]]]].
  exists added, made. repeat split; try assumption.
  intros k e Hf. rewrite He. now apply find_app_some.
Qed.

Lemma for_of_bounds (importer : Importer state) (strategy : string) :
  createImporter query strategy = inr importer ->
  forall configs s o s',
    for_of configs (import importer) s = (o, s') ->
    (List.length (entries s) <= List.length (entries s'))%nat
    /\ (List.length (entries s')
        <= List.length (entries s) + List.length configs)%nat
    /\ (List.length (calls s')
        <= List.length (calls s) + 2 * List.length configs)%nat.
Proof.
  intros Hc. induction configs as [|conf configs IH]; intros s o s'.
  - simpl. unfold ret. intros [= _ <-]. lia.
  - simpl. unfold bind.
    destruct (import importer conf s) as [o1 s1] eqn:E.
    destruct (@import_effect_any _ _ _ _ _ _ Hc E)
      as [[l [Hl Hn]] Hent].
    assert (Hs1 : (List.length (entries s) <= List.length (entries s1)
                   <= List.length (entries s) + 1)%nat
                  /\ (List.length (calls s1)
                      <= List.length (calls s) + 2)%nat).
    { rewrite Hl, length_app. split; [|lia].
      destruct Hent as [-> | [-> | [k [r ->]]]];
        rewrite ?length_app, ?length_overwrite; simpl; lia. }
    destruct o1 as [[]| |].
    + intros H. apply IH in H. simpl. lia.
    + intros [= _ <-]. simpl. lia.
    + intros [= _ <-]. simpl. lia.
Qed.

(** X9.  The restore never removes an entry and adds at most one per
    record: under every strategy and however it ends, the store holds at
    least as many entries as before and at most as many more as the array
    has records, and at most two store calls were made per record. *)
Theorem restore_entry_bounds
        (JSON_parse : string -> string + value) (input strategy : string)
        (importer : Importer state) (configs : list value)
        (s s' : state) (o : outcome string) :
  JSON_parse input = inr (JArr configs) ->
  createImporter query strategy = inr importer ->
  configurationRestore query JSON_parse input (Some strategy) s = (o, s') ->
  (List.length (entries s) <= List.length (entries s'))%nat
  /\ (List.length (entries s')
      <= List.length (entries s) + List.length configs)%nat
  /\ (List.length (calls s')
      <= List.length (calls s) + 2 * List.length configs)%nat.
Proof.
  intros Hp Hc Hrun.
  destruct (@restore_state _ _ _ _ _ _ _ _ _ _ Hp Hc Hrun) as [o' Hloop].
  exact (@for_of_bounds _ _ Hc _ _ _ _ Hloop).
Qed.

(** A loop whose every step returns and keeps [Q] returns and keeps [Q]. *)
Lemma for_of_returns {S A} (Q : S -> Prop) (R : A -> Prop)
      (body : A -> Async S unit) (xs : list A) :
  (forall x t, R x -> Q t -> exists t', body x t = (Returned tt, t') /\ Q t') ->
  Forall R xs ->
  forall s, Q s -> exists s', for_of xs body s = (Returned tt, s') /\ Q s'.
Proof.
  intros Hstep HR. induction HR as [|x xs Hx _ IH]; intros s Hs.
  - exists s. now split.
  - destruct (Hstep x s Hx Hs) as [t [Ht Hq]].
    destruct (IH t Hq) as [s' [Hs' Hq']].
    exists s'. split; [|exact Hq'].
    simpl. unfold bind. now rewrite Ht.
Qed.

Lemma healthy_next (s : state) (es : list value) (cs : list call) :
  healthy s = true ->
  healthy {| entries := es; calls := cs; faults := tl (faults s) |} = true.
Proof. intros Hs. now apply StoreFacts.healthy_tl. Qed.

Lemma is_object_inv (v : value) :
  Json.is_object v = true -> exists fields, v = JObj fields.
Proof. destruct v; try discriminate. eauto. Qed.

Lemma find_overwrite_same (k : filter) (r : value) (es : list value) :
  matches k r = true ->
  existsb (matches k) es = true ->
  List.find (matches k) (overwrite k r es) = Some r.
Proof.
  intros Hr. induction es as [|e es IH]; simpl; [discriminate|].
  destruct (matches k e) eqn:E; simpl.
  - now rewrite Hr.
  - now rewrite E.
Qed.

Lemma find_overwrite_other (k k2 : filter) (r : value) (es : list value) :
  matches k2 r = true ->
  matches k r = false ->
  List.find (matches k) (overwrite k2 r es) = List.find (matches k) es.
Proof.
  intros H2 Hk. induction es as [|e es IH]; simpl; [reflexivity|].
  destruct (matches k2 e) eqn:E; simpl.
  - rewrite Hk. rewrite <- (@matches_same_key k2 k r e H2 E), Hk.
    reflexivity.
  - now rewrite IH.
Qed.

Lemma find_app_last (k : filter) (entry : value) (es : list value) :
  existsb (matches k) es = false ->
  matches k entry = true ->
  List.find (matches k) (es ++ [entry]) = Some entry.
Proof.
  intros Ha Hm. induction es as [|e es IH]; simpl in *.
  - now rewrite Hm.
  - destruct (matches k e); [discriminate | now apply IH].
Qed.

Lemma existsb_app_other (k : filter) (c : value) (es : list value) :
  matches k c = false ->
  existsb (matches k) (es ++ [c]) = existsb (matches k) es.
Proof.
  intros Hc. rewrite existsb_app. simpl. rewrite Hc.
  now rewrite !orb_false_r.
Qed.

(** What the store answers for [k] after a replace or keep import of a
    record of another key. *)
Lemma import_other_key (strategy : string) (importer : Importer state)
      (k : filter) (fields : list (string * value)) (s : state) :
  In strategy ["replace"; "keep"]%string ->
  createImporter query strategy = inr importer ->
  healthy s = true ->
  matches k (JObj fields) = false ->
  exists s',
    import importer (JObj fields) s = (Returned tt, s')
    /\ healthy s' = true
    /\ List.find (matches k) (entries s') = List.find (matches k) (entries s).
Proof.
  intros Hin Hc Hs Hk.
  pose proof (StoreFacts.matches_own_key fields) as Hown.
  destruct Hin as [<- | [<- | []]]; injection Hc as <-.
  - rewrite replace_import_healthy by exact Hs. eexists.
    split; [reflexivity|]. split; [now apply healthy_after|].
    cbn [entries]. destruct (existsb _ (entries s)).
    + now apply find_overwrite_other.
    + destruct (List.find (matches k) (entries s)) as [e|] eqn:Ef.
      * now apply find_app_some.
      * apply StoreFacts.find_none. rewrite existsb_app_other by exact Hk.
        now apply StoreFacts.find_none.
  - rewrite keep_import_healthy by exact Hs. eexists.
    split; [reflexivity|].
    destruct (existsb _ (entries s)).
    + split; [now apply healthy_next | reflexivity].
    + split; [now apply healthy_after|]. cbn [entries].
      destruct (List.find (matches k) (entries s)) as [e|] eqn:Ef.
      * now apply find_app_some.
      * apply StoreFacts.find_none. rewrite existsb_app_other by exact Hk.
        now apply StoreFacts.find_none.
Qed.

(** X10.  Under [replace] and [keep], on a store that answers its calls, the
    restore of an array of mappings cannot fail: it returns its line, which
    gives the number of records of the array. *)
Theorem restore_mappings_succeeds
        (JSON_parse : string -> string + value) (input strategy : string)
        (configs : list value) (s : state) :
  JSON_parse input = inr (JArr configs) ->
  In strategy ["replace"; "keep"]%string ->
  forallb Json.is_object configs = true ->
  healthy s = true ->
  exists s',
    configurationRestore query JSON_parse input (Some strategy) s
      = (Returned (Examples.summary (List.length configs) strategy), s')
    /\ healthy s' = true.
Proof.
  intros Hp Hin Hobj Hs.
  assert (Hc : exists importer, createImporter query strategy = inr importer)
    by (destruct Hin as [<- | [<- | []]]; eexists; reflexivity).
  destruct Hc as [importer Hc].
  destruct (@for_of_returns state value (fun t => healthy t = true)
              (fun c => Json.is_object c = true)
              (import importer) configs) with (s := s)
    as [s' [Hl Hs']]; try assumption.
  - intros conf t Ho Ht. apply is_object_inv in Ho as [fields ->].
    destruct Hin as [<- | [<- | []]]; injection Hc as <-.
    + rewrite replace_import_healthy by exact Ht. eexists.
      split; [reflexivity | now apply healthy_after].
    + rewrite keep_import_healthy by exact Ht. eexists.
      split; [reflexivity|].
      destruct (existsb _ (entries t));
        [now apply healthy_next | now apply healthy_after].
  - now apply Forall_forall, forallb_forall.
  - exists s'. split; [|exact Hs'].
    rewrite restore_runs with (1 := Hp) (2 := Hc). now rewrite Hl.
Qed.

Lemma restore_three_parts
      (JSON_parse : string -> string + value) (input strategy : string)
      (importer : Importer state) (pre post : list value) (conf : value)
      (s s1 s2 s3 : state) :
  JSON_parse input = inr (JArr (pre ++ conf :: post)) ->
  createImporter query strategy = inr importer ->
  for_of pre (import importer) s = (Returned tt, s1) ->
  import importer conf s1 = (Returned tt, s2) ->
  for_of post (import importer) s2 = (Returned tt, s3) ->
  configurationRestore query JSON_parse input (Some strategy) s
    = (Returned
         (Examples.summary (List.length (pre ++ conf :: post)) strategy), s3).
Proof.
  intros Hp Hc H1 H2 H3.
  rewrite restore_runs with (1 := Hp) (2 := Hc).
  rewrite for_of_app with (s1 := s1) by exact H1.
  simpl. unfold bind. now rewrite H2, H3.
Qed.

(** X11.  Last write wins under [replace], in general.  On a store that
    answers its calls, after the restore of an array of mappings, the store
    answers a key of the array with the last record of the array that has
    this key: the record itself, whatever the store held for the key and
    whatever the earlier records of that key were. *)
Theorem replace_last_write_wins
        (JSON_parse : string -> string + value) (input : string)
        (pre post : list value) (fields : list (string * value))
        (s : state) :
  JSON_parse input = inr (JArr (pre ++ JObj fields :: post)) ->
  healthy s = true ->
  forallb Json.is_object pre = true ->
  forallb Json.is_object post = true ->
  forallb (fun c => negb (matches (Json.lookup "key" fields) c)) post
    = true ->
  exists s',
    configurationRestore query JSON_parse input (Some "replace"%string) s
      = (Returned
           (Examples.summary
              (List.length (pre ++ JObj fields :: post)) "replace"), s')
    /\ List.find (matches (Json.lookup "key" fields)) (entries s')
       = Some (JObj fields).
Proof.
  intros Hp Hs Hpre Hpost Hother.
  set (k := Json.lookup "key" fields) in *.
  pose proof (StoreFacts.matches_own_key fields) as Hown. fold k in Hown.
  destruct (@for_of_returns state value (fun t => healthy t = true)
              (fun c => Json.is_object c = true)
              (import (createReplaceImporter query)) pre) with (s := s)
    as [s1 [H1 Hs1]]; try assumption.
  { intros c t Ho Ht. apply is_object_inv in Ho as [f ->].
    rewrite replace_import_healthy by exact Ht. eexists.
    split; [reflexivity | now apply healthy_after]. }
  { now apply Forall_forall, forallb_forall. }
  pose proof (@replace_import_healthy s1 fields Hs1) as H2. fold k in H2.
  set (s2 := {| entries :=
                  if existsb (matches k) (entries s1)
                  then overwrite k (JObj fields) (entries s1)
                  else entries s1 ++ [JObj fields];
                calls := calls s1 ++
                           [Count k;
                            if existsb (matches k) (entries s1)
                            then Update k (JObj fields)
                            else Create (JObj fields)];
                faults := tl (tl (faults s1)) |}) in *.
  assert (Hf2 : List.find (matches k) (entries s2) = Some (JObj fields)).
  { unfold s2. cbn [entries].
    destruct (existsb (matches k) (entries s1)) eqn:E.
    - now apply find_overwrite_same.
    - now apply find_app_last. }
  destruct (@for_of_returns state value
              (fun t => healthy t = true
                        /\ List.find (matches k) (entries t)
                           = Some (JObj fields))
              (fun c => Json.is_object c = true /\ matches k c = false)
              (import (createReplaceImporter query)) post) with (s := s2)
    as [s3 [H3 [_ Hf3]]].
  { intros c t [Ho Hk] [Ht Hf]. apply is_object_inv in Ho as [f ->].
    destruct (@import_other_key "replace" (createReplaceImporter query)
                k f t) as [t' [Hi [Ht' Hf']]];
      try assumption; try reflexivity; [now left|].
    exists t'. split; [exact Hi|]. split; [exact Ht' | congruence]. }
  { apply Forall_forall. intros c Hin.
    rewrite forallb_forall in Hpost, Hother.
    split; [now apply Hpost|]. apply negb_true_iff. now apply Hother. }
  { split; [now apply healthy_after | exact Hf2]. }
  exists s3. split; [|exact Hf3].
  now apply restore_three_parts
    with (importer := createReplaceImporter query) (s1 := s1) (s2 := s2).
Qed.

(** X12.  First write wins under [keep], in general.  On a store that
    answers its calls and has no entry for a key, after the restore of an
    array of mappings, the store answers this key with the first record of
    the array that has it, whatever the later records of that key are. *)
Theorem keep_first_write_wins
        (JSON_parse : string -> string + value) (input : string)
        (pre post : list value) (fields : list (string * value))
        (s : state) :
  JSON_parse input = inr (JArr (pre ++ JObj fields :: post)) ->
  healthy s = true ->
  existsb (matches (Json.lookup "key" fields)) (entries s) = false ->
  forallb Json.is_object pre = true ->
  forallb Json.is_object post = true ->
  forallb (fun c => negb (matches (Json.lookup "key" fields) c)) pre
    = true ->
  exists s',
    configurationRestore query JSON_parse input (Some "keep"%string) s
      = (Returned
           (Examples.summary
              (List.length (pre ++ JObj fields :: post)) "keep"), s')
    /\ List.find (matches (Json.lookup "key" fields)) (entries s')
       = Some (JObj fields).
Proof.
  intros Hp Hs Ha Hpre Hpost Hother.
  set (k := Json.lookup "key" fields) in *.
  pose proof (StoreFacts.matches_own_key fields) as Hown. fold k in Hown.
  destruct (@for_of_returns state value
              (fun t => healthy t = true
                        /\ existsb (matches k) (entries t) = false)
              (fun c => Json.is_object c = true /\ matches k c = false)
              (import (createKeepImporter query)) pre) with (s := s)
    as [s1 [H1 [Hs1 Ha1]]].
  { intros c t [Ho Hk] [Ht Hf]. apply is_object_inv in Ho as [f ->].
    destruct (@import_other_key "keep" (createKeepImporter query)
                k f t) as [t' [Hi [Ht' Hf']]];
      try assumption; try reflexivity; [right; now left|].
    exists t'. split; [exact Hi|]. split; [exact Ht'|].
    apply StoreFacts.find_none. rewrite Hf'.
    now apply StoreFacts.find_none. }
  { apply Forall_forall. intros c Hin.
    rewrite forallb_forall in Hpre, Hother.
    split; [now apply Hpre|]. apply negb_true_iff. now apply Hother. }
  { now split. }
  pose proof (@keep_import_healthy s1 fields Hs1) as H2. fold k in H2.
  rewrite Ha1 in H2.
  destruct (@for_of_returns state value
              (fun t => healthy t = true
                        /\ List.find (matches k) (entries t)
                           = Some (JObj fields))
              (fun c => Json.is_object c = true)
              (import (createKeepImporter query)) post)
    with (s := {| entries := entries s1 ++ [JObj fields];
                  calls := calls s1 ++ [Count k; Create (JObj fields)];
                  faults := tl (tl (faults s1)) |})
    as [s3 [H3 [_ Hf3]]].
  { intros c t Ho [Ht Hf]. apply is_object_inv in Ho as [f ->].
    rewrite keep_import_healthy by exact Ht. eexists.
    split; [reflexivity|].
    destruct (existsb _ (entries t)).
    - split; [now apply healthy_next | exact Hf].
    - split; [now apply healthy_after|]. cbn [entries].
      now apply find_app_some. }
  { now apply Forall_forall, forallb_forall. }
  { split; [now apply healthy_after|]. cbn [entries].
    now apply find_app_last. }
  exists s3. split; [|exact Hf3].
  now apply restore_three_parts
    with (importer := createKeepImporter query) (s1 := s1)
         (s2 := {| entries := entries s1 ++ [JObj fields];
                   calls := calls s1 ++ [Count k; Create (JObj fields)];
                   faults := tl (tl (faults s1)) |}).
Qed.

Lemma overwrite_idem (k : filter) (r : value) (es : list value) :
  matches k r = true ->
  overwrite k r (overwrite k r es) = overwrite k r es.
Proof.
  intros Hr. induction es as [|e es IH]; simpl; [reflexivity|].
  destruct (matches k e) eqn:E; simpl.
  - now rewrite Hr.
  - now rewrite E, IH.
Qed.

Lemma existsb_overwrite (k : filter) (r : value) (es : list value) :
  matches k r = true ->
  existsb (matches k) es = true ->
  existsb (matches k) (overwrite k r es) = true.
Proof.
  intros Hr He.
  pose proof (@find_overwrite_same k r es Hr He) as Hf.
  now apply find_some_exists in Hf.
Qed.

Lemma existsb_app_last (k : filter) (r : value) (es : list value) :
  matches k r = true -> existsb (matches k) (es ++ [r]) = true.
Proof.
  intros Hr. rewrite existsb_app. simpl. rewrite Hr.
  now rewrite orb_true_r.
Qed.

(** X13.  Importing a record twice is importing it once, under [replace]
    and [keep]: on a store that answers its calls, the second import of the
    same mapping right after the first returns and leaves every entry as
    the first import left it. *)
Theorem import_twice_is_once
        (strategy : string) (importer : Importer state)
        (fields : list (string * value)) (s : state) :
  In strategy ["replace"; "keep"]%string ->
  createImporter query strategy = inr importer ->
  healthy s = true ->
  exists s1 s2,
    import importer (JObj fields) s = (Returned tt, s1)
    /\ import importer (JObj fields) s1 = (Returned tt, s2)
    /\ entries s2 = entries s1.
Proof.
  intros Hin Hc Hs.
  pose proof (StoreFacts.matches_own_key fields) as Hown.
  destruct Hin as [<- | [<- | []]]; injection Hc as <-.
  - rewrite replace_import_healthy by exact Hs. do 2 eexists.
    split; [reflexivity|].
    rewrite replace_import_healthy by (now apply healthy_after).
    split; [reflexivity|]. cbn [entries].
    destruct (existsb _ (entries s)) eqn:E.
    + rewrite existsb_overwrite by assumption. now apply overwrite_idem.
    + rewrite existsb_app_last by assumption.
      now apply StoreFacts.overwrite_last.
  - rewrite keep_import_healthy by exact Hs.
    destruct (existsb _ (entries s)) eqn:E; do 2 eexists;
      (split; [reflexivity|]);
      rewrite keep_import_healthy
        by (now apply healthy_next || now apply healthy_after);
      cbn [entries].
    + rewrite E. now split.
    + rewrite existsb_app_last by assumption. now split.
Qed.

Lemma merge_self (fields : list (string * value)) (merged : value) :
  Json.wf (JObj fields) = true ->
  Lodash.merge (JObj fields) (JObj fields) = Some merged ->
  merged = JObj fields.
Proof.
  intros Hw Hm. apply MergeFacts.baseMergeDeep_self; [exact Hw|].
  exact Hm.
Qed.

(** X14.  Importing a record twice is importing it once, under [merge]: on
    a store of mappings that answers its calls, when the import of a parsed
    mapping has returned, importing the same mapping again never throws,
    and when it returns every entry is as the first import left it:
    merging a record into the result of merging it changes nothing. *)
Theorem merge_import_twice_is_once
        (fields : list (string * value)) (s s1 : state) :
  healthy s = true ->
  Json.wf (JObj fields) = true ->
  records (entries s) = true ->
  import (createMergeImporter query) (JObj fields) s = (Returned tt, s1) ->
  exists o2 s2,
    import (createMergeImporter query) (JObj fields) s1 = (o2, s2)
    /\ (forall e, o2 <> Thrown e)
    /\ (o2 = Returned tt -> entries s2 = entries s1).
Proof.
  intros Hs Hw Hr.
  pose proof (StoreFacts.matches_own_key fields) as Hown.
  rewrite merge_import_healthy by exact Hs. cbn zeta.
  set (k := Json.lookup "key" fields) in *.
  assert (Hcreated :
            existsb (matches k) (entries s) = false ->
            forall cs fs,
              healthy {| entries := entries s ++ [JObj fields];
                         calls := cs; faults := fs |} = true ->
              exists o2 s2,
                import (createMergeImporter query) (JObj fields)
                  {| entries := entries s ++ [JObj fields];
                     calls := cs; faults := fs |} = (o2, s2)
                /\ (forall e, o2 <> Thrown e)
                /\ (o2 = Returned tt ->
                    entries s2 = entries s ++ [JObj fields])).
  { intros Ha cs fs Hh. rewrite merge_import_healthy by exact Hh.
    cbn zeta. cbn [entries]. fold k.
    rewrite find_app_last by assumption. cbn [Json.truthy].
    destruct (Lodash.merge (JObj fields) (JObj fields)) as [m|] eqn:Em.
    - apply merge_self in Em; [|exact Hw]. subst m.
      do 2 eexists. split; [reflexivity|]. split; [discriminate|].
      intros _. cbn [entries]. now apply StoreFacts.overwrite_last.
    - do 2 eexists. split; [reflexivity|]. split; discriminate. }
  destruct (List.find (matches k) (entries s)) as [e|] eqn:Ef.
  - pose proof (@records_find k _ e Hr Ef) as Ho.
    apply is_object_inv in Ho as [obj ->]. cbn [Json.truthy].
    destruct (find_some_exists _ _ Ef) as [Hex Hme].
    destruct (Lodash.merge (JObj obj) (JObj fields)) as [merged|] eqn:Em;
      [|discriminate].
    intros [= <-].
    destruct (@merge_keeps_key obj fields merged Hw Hme Em) as [Hkm Hom].
    rewrite merge_import_healthy by (now apply healthy_after).
    cbn zeta. cbn [entries]. fold k.
    rewrite find_overwrite_same by assumption.
    apply is_object_inv in Hom as [m ->]. cbn [Json.truthy].
    rewrite (@MergeFacts.merge_absorb obj fields (JObj m) Hw Em).
    do 2 eexists. split; [reflexivity|]. split; [discriminate|].
    intros _. cbn [entries]. now apply overwrite_idem.
  - intros [= <-]. apply Hcreated.
    + now apply StoreFacts.find_none.
    + now apply healthy_after.
Qed.

(** X15.  The shape of the payload the merge importer writes, for a
    record whose key has an entry (both mappings), on a store that answers
    its calls, in the runs where [_.merge] gives JSON data again and meets
    no property named [__proto__] in the record (lodash does not copy such
    a property when it holds a mapping or an array; the model does not
    follow it).  The payload passed to [update] has exactly the top-level
    property names of the existing entry together with those of the
    record; a property the record does not have keeps the existing value;
    the properties of the existing entry keep their relative order; and
    when the existing entry lists its properties in JavaScript's property
    order, so does the payload: a new property named by an array index is
    listed among the indices, not last. *)
Theorem merge_import_keeps_fields
        (s : state) (objFields srcFields : list (string * value))
        (merged : value) :
  healthy s = true ->
  List.find (matches (Json.lookup "key" srcFields)) (entries s)
    = Some (JObj objFields) ->
  Lodash.merge (JObj objFields) (JObj srcFields) = Some merged ->
  exists s' fields,
    import (createMergeImporter query) (JObj srcFields) s = (Returned tt, s')
    /\ calls s' = calls s ++ [Find (Json.lookup "key" srcFields);
                              Update (Json.lookup "key" srcFields) merged]
    /\ merged = JObj fields
    /\ (forall f,
           Json.lookup f fields <> None
           <-> (Json.lookup f objFields <> None
                \/ Json.lookup f srcFields <> None))
    /\ (forall f,
           Json.lookup f srcFields = None ->
           Json.lookup f fields = Json.lookup f objFields)
    /\ List.filter (fun k => existsb (String.eqb k) (Json.names objFields))
         (Json.names fields)
       = Json.names objFields
    /\ (Json.ordered_names (Json.names objFields) = true ->
        Json.ordered_names (Json.names fields) = true).
Proof.
  intros Hs Hf Hm.
  rewrite (@merge_import_existing s objFields srcFields merged Hs Hf Hm).
  simpl in Hm.
  destruct (Lodash.baseMergeFields objFields srcFields) as [m|] eqn:Em;
    [|discriminate].
  injection Hm as <-.
  do 2 eexists. split; [reflexivity|]. cbn [calls].
  split; [reflexivity|]. split; [reflexivity|].
  split; [exact (@MergeFacts.baseMergeFields_names srcFields objFields m Em)|].
  split; [|split].
  - intros f Hn. exact (@baseMergeFields_absent f srcFields Hn _ _ Em).
  - rewrite (@MergeFacts.baseMergeFields_keeps_order
               (Json.names objFields) srcFields objFields m); [| |exact Em].
    + apply MergeFacts.filter_own_names.
    + intros k. apply MergeFacts.lookup_named.
  - intros Ho.
    exact (@MergeFacts.baseMergeFields_ordered_names srcFields objFields m
             Ho Em).
Qed.

Section EmptyArray.
Variable S : Type.
Variable db : Query S.
Variable JSON_parse : string -> string + value.

(** X16.  The empty array: under each of the three strategies the command
    returns its line with the count [0] and leaves the database in the
    state it was in, so no store call is made, whatever the database does
    on a call. *)
Theorem restore_empty_array (input strategy : string) (s : S) :
  JSON_parse input = inr (JArr []) ->
  In strategy ["replace"; "merge"; "keep"]%string ->
  configurationRestore db JSON_parse input (Some strategy) s
    = (Returned (Examples.summary 0 strategy), s).
Proof.
  intros Hp Hin.
  assert (Hc : exists importer, createImporter db strategy = inr importer)
    by (destruct Hin as [<- | [<- | [<- | []]]]; eexists; reflexivity).
  destruct Hc as [importer Hc].
  now rewrite restore_runs with (1 := Hp) (2 := Hc).
Qed.
End EmptyArray.

(** ** The further properties at concrete inputs *)

Lemma readStdin_settles_witness :
  let stdin :=
    {| Input.isTTY := false;
       Input.events :=
         [Input.Readable [Some "[1,"; Some "2]"; None]%string;
          Input.Readable [Some "  "; None]%string;
          Input.End;
          Input.Readable [Some "late"]%string] |} in
  Input.isTTY stdin = false
  /\ Input.readStdin stdin = Input.Resolved "[1,2]  "%string.
Proof.
  intros stdin. split; [reflexivity|].
  exact (@readStdin_settles stdin
           [Input.Readable [Some "[1,"; Some "2]"; None]%string;
            Input.Readable [Some "  "; None]%string]
           [Input.Readable [Some "late"]%string]
           Input.End eq_refl eq_refl eq_refl eq_refl).
Defined.

Lemma readStdin_waits_for_end_witness :
  let stdin :=
    {| Input.isTTY := false;
       Input.events := [Input.Readable [Some "[]"; None]%string] |} in
  forallb Batch.is_readable (Input.events stdin) = true
  /\ Input.readStdin stdin = Input.Pending.
Proof.
  intros stdin. split; [reflexivity|].
  exact (@readStdin_waits_for_end stdin eq_refl).
Defined.

Lemma unreadable_input_stops_witness :
  let readFileSync := fun _ : string => @inl exn string (Error "ENOENT") in
  let stdin := {| Input.isTTY := true; Input.events := [] |} in
  readFileSync "dump.json"%string = inl (Error "ENOENT")
  /\ exists run,
      Input.module_exports query (fun _ => inr (JArr [])) readFileSync
        (create query Examples.dup_first) stdin (Some "dump.json"%string)
        None = Some run
      /\ run CoreStore.empty = (Thrown (Error "ENOENT"), CoreStore.empty).
Proof.
  intros readFileSync stdin. split; [reflexivity|].
  exact (@unreadable_input_stops state query (fun _ => inr (JArr []))
           readFileSync (create query Examples.dup_first) stdin
           (Some "dump.json"%string) None (Error "ENOENT")
           CoreStore.empty eq_refl).
Defined.

Lemma load_precedes_validation_witness :
  let readFileSync := fun _ : string => @inr exn string "{}"%string in
  let parse := fun _ : string => @inr string value (JObj []) in
  let stdin := {| Input.isTTY := true; Input.events := [] |} in
  "dump.json"%string <> ""%string
  /\ (forall configs, parse "{}"%string <> inr (JArr configs))
  /\ exists run,
      Input.module_exports query parse readFileSync
        (create query Examples.dup_first) stdin (Some "dump.json"%string)
        (Some "keep"%string) = Some run
      /\ run CoreStore.empty
         = (Thrown (Error "Invalid input data. Expected a valid JSON array."),
            {| entries := [Examples.dup_first];
               calls := [Create Examples.dup_first];
               faults := [] |}).
Proof.
  intros readFileSync parse stdin.
  assert (Hne : "dump.json"%string <> ""%string) by discriminate.
  assert (Hn : forall configs, parse "{}"%string <> inr (JArr configs))
    by (intros configs H; discriminate H).
  split; [exact Hne|]. split; [exact Hn|].
  exact (@load_precedes_validation state query parse readFileSync
           (create query Examples.dup_first) stdin "dump.json" "{}"
           (Some "keep"%string) CoreStore.empty Hne eq_refl Hn).
Defined.

Lemma null_record_throws_witness :
  let parse := fun _ : string =>
    @inr string value
      (JArr ([Examples.dup_first] ++ JNull :: [Examples.dup_second])) in
  let s1 := {| entries := [Examples.dup_first];
               calls := [Count Examples.key_a; Create Examples.dup_first];
               faults := [] |} in
  for_of [Examples.dup_first] (import (createKeepImporter query))
    CoreStore.empty = (Returned tt, s1)
  /\ configurationRestore query parse "[record, null, record]"
       (Some "keep"%string) CoreStore.empty
     = (Thrown TypeError, s1).
Proof.
  intros parse s1. split; [reflexivity|].
  exact (proj2 (@null_record_throws state query parse
                  "[record, null, record]" "keep"
                  (createKeepImporter query)
                  [Examples.dup_first] [Examples.dup_second]
                  CoreStore.empty s1 eq_refl eq_refl eq_refl)).
Defined.

Lemma restore_returns_only_if_witness :
  let parse := fun _ : string =>
    @inr string value (JArr [Examples.dup_first]) in
  let s' := {| entries := [Examples.dup_first];
               calls := [Count Examples.key_a; Create Examples.dup_first];
               faults := [] |} in
  configurationRestore query parse "[record]" None CoreStore.empty
    = (Returned (Examples.summary 1 "replace"), s')
  /\ exists configs importer,
      parse "[record]"%string = inr (JArr configs)
      /\ createImporter query "replace" = inr importer
      /\ for_of configs (import importer) CoreStore.empty = (Returned tt, s').
Proof.
  intros parse s'. split; [reflexivity|].
  destruct (@restore_returns_only_if state query parse "[record]" None
              (Examples.summary 1 "replace") CoreStore.empty s' eq_refl)
    as [configs [importer [Hp [Hc [Hl _]]]]].
  exists configs, importer. auto.
Defined.

Lemma restore_keeps_one_per_key_witness :
  let parse := fun _ : string =>
    @inr string value (JArr [Examples.dup_first; Examples.dup_second]) in
  let s := {| entries := [Examples.nested_existing]; calls := [];
              faults := [false; false; false; true] |} in
  let result :=
    configurationRestore query parse "[two records]" (Some "merge"%string) s in
  Batch.parsed_records [Examples.dup_first; Examples.dup_second] = true
  /\ Batch.records (entries s) = true
  /\ Batch.one_per_key s
  /\ fst result = Thrown (StoreError "update")
  /\ Batch.one_per_key (snd result)
  /\ Batch.records (entries (snd result)) = true.
Proof.
  intros parse s result.
  assert (Hu : Batch.one_per_key s).
  { intros k. unfold unique, matching. simpl.
    destruct (matches k Examples.nested_existing); simpl; lia. }
  split; [reflexivity|]. split; [reflexivity|]. split; [exact Hu|].
  split; [reflexivity|].
  exact (@restore_keeps_one_per_key parse "[two records]" "merge"
           (createMergeImporter query)
           [Examples.dup_first; Examples.dup_second]
           s (snd result) (fst result)
           eq_refl eq_refl eq_refl eq_refl Hu eq_refl).
Defined.

Lemma keep_restore_preserves_entries_witness :
  let parse := fun _ : string =>
    @inr string value
      (JArr [Examples.dup_second; JObj [("key", JStr "b")]]) in
  let s := {| entries := [Examples.dup_first]; calls := [];
              faults := [false; false; true] |} in
  let result :=
    configurationRestore query parse "[two records]" (Some "keep"%string) s in
  fst result = Thrown (StoreError "create")
  /\ exists added made,
      entries (snd result) = entries s ++ added
      /\ calls (snd result) = calls s ++ made
      /\ forallb (fun c => negb (Batch.is_update c)) made = true.
Proof.
  intros parse s result. split; [reflexivity|].
  destruct (@keep_restore_preserves_entries parse "[two records]"
              [Examples.dup_second; JObj [("key", JStr "b")]]
              s (snd result) (fst result) eq_refl eq_refl)
    as [added [made [He [_ [Hc [Hm _]]]]]].
  exists added, made. auto.
Defined.

Lemma restore_entry_bounds_witness :
  let parse := fun _ : string =>
    @inr string value (JArr [Examples.dup_first; Examples.dup_second]) in
  let s := Examples.store_of [Examples.nested_existing] in
  let result :=
    configurationRestore query parse "[two records]"
      (Some "replace"%string) s in
  createImporter query "replace" = inr (createReplaceImporter query)
  /\ (List.length (entries s) <= List.length (entries (snd result)))%nat
  /\ (List.length (entries (snd result)) <= List.length (entries s) + 2)%nat
  /\ (List.length (calls (snd result)) <= List.length (calls s) + 4)%nat.
Proof.
  intros parse s result. split; [reflexivity|].
  exact (@restore_entry_bounds parse "[two records]" "replace"
           (createReplaceImporter query)
           [Examples.dup_first; Examples.dup_second]
           s (snd result) (fst result) eq_refl eq_refl eq_refl).
Defined.

Lemma restore_mappings_succeeds_witness :
  let parse := fun _ : string =>
    @inr string value (JArr [Examples.dup_first; Examples.dup_second]) in
  In "keep"%string ["replace"; "keep"]%string
  /\ forallb Json.is_object [Examples.dup_first; Examples.dup_second] = true
  /\ healthy CoreStore.empty = true
  /\ exists s',
      configurationRestore query parse "[two records]"
        (Some "keep"%string) CoreStore.empty
      = (Returned (Examples.summary 2 "keep"), s').
Proof.
  intros parse.
  assert (Hin : In "keep"%string ["replace"; "keep"]%string)
    by (right; left; reflexivity).
  split; [exact Hin|]. split; [reflexivity|]. split; [reflexivity|].
  destruct (@restore_mappings_succeeds parse "[two records]" "keep"
              [Examples.dup_first; Examples.dup_second] CoreStore.empty
              eq_refl Hin eq_refl eq_refl) as [s' [Hr _]].
  exists s'. exact Hr.
Defined.

Lemma replace_last_write_wins_witness :
  let other := JObj [("key", JStr "b")] in
  let parse := fun _ : string =>
    @inr string value
      (JArr ([Examples.dup_first] ++ Examples.dup_second :: [other])) in
  healthy (Examples.store_of [Examples.nested_existing]) = true
  /\ forallb (fun c => negb (matches Examples.key_a c)) [other] = true
  /\ exists s',
      configurationRestore query parse "[three records]"
        (Some "replace"%string) (Examples.store_of [Examples.nested_existing])
      = (Returned (Examples.summary 3 "replace"), s')
      /\ List.find (matches Examples.key_a) (entries s')
         = Some Examples.dup_second.
Proof.
  intros other parse. split; [reflexivity|]. split; [reflexivity|].
  exact (@replace_last_write_wins parse "[three records]"
           [Examples.dup_first] [other]
           [("key", JStr "a"); ("v", JNum 2)]
           (Examples.store_of [Examples.nested_existing])
           eq_refl eq_refl eq_refl eq_refl eq_refl).
Defined.

Lemma keep_first_write_wins_witness :
  let other := JObj [("key", JStr "b")] in
  let parse := fun _ : string =>
    @inr string value
      (JArr ([other] ++ Examples.dup_first :: [Examples.dup_second])) in
  healthy CoreStore.empty = true
  /\ existsb (matches Examples.key_a) (entries CoreStore.empty) = false
  /\ forallb (fun c => negb (matches Examples.key_a c)) [other] = true
  /\ exists s',
      configurationRestore query parse "[three records]"
        (Some "keep"%string) CoreStore.empty
      = (Returned (Examples.summary 3 "keep"), s')
      /\ List.find (matches Examples.key_a) (entries s')
         = Some Examples.dup_first.
Proof.
  intros other parse.
  split; [reflexivity|]. split; [reflexivity|]. split; [reflexivity|].
  exact (@keep_first_write_wins parse "[three records]"
           [other] [Examples.dup_second]
           [("key", JStr "a"); ("v", JNum 1)]
           CoreStore.empty
           eq_refl eq_refl eq_refl eq_refl eq_refl eq_refl).
Defined.

Lemma import_twice_is_once_witness :
  In "replace"%string ["replace"; "keep"]%string
  /\ healthy (Examples.store_of [Examples.dup_first]) = true
  /\ exists s1 s2,
      import (createReplaceImporter query) Examples.dup_second
        (Examples.store_of [Examples.dup_first]) = (Returned tt, s1)
      /\ import (createReplaceImporter query) Examples.dup_second s1
         = (Returned tt, s2)
      /\ entries s2 = entries s1.
Proof.
  assert (Hin : In "replace"%string ["replace"; "keep"]%string)
    by (left; reflexivity).
  split; [exact Hin|]. split; [reflexivity|].
  exact (@import_twice_is_once "replace" (createReplaceImporter query)
           [("key", JStr "a"); ("v", JNum 2)]
           (Examples.store_of [Examples.dup_first]) Hin eq_refl eq_refl).
Defined.

Lemma merge_import_twice_is_once_witness :
  let s := Examples.store_of [Examples.nested_existing] in
  let s1 := {| entries := [Examples.nested_merged];
               calls := [Find Examples.key_a;
                         Update Examples.key_a Examples.nested_merged];
               faults := [] |} in
  healthy s = true
  /\ Json.wf Examples.nested_incoming = true
  /\ Batch.records (entries s) = true
  /\ import (createMergeImporter query) Examples.nested_incoming s
     = (Returned tt, s1)
  /\ exists o2 s2,
      import (createMergeImporter query) Examples.nested_incoming s1
        = (o2, s2)
      /\ (o2 = Returned tt -> entries s2 = entries s1).
Proof.
  intros s s1.
  split; [reflexivity|]. split; [reflexivity|]. split; [reflexivity|].
  split; [reflexivity|].
  destruct (@merge_import_twice_is_once
              [("key", JStr "a"); ("nested", JObj [("y", JNum 99)])]
              s s1 eq_refl eq_refl eq_refl eq_refl)
    as [o2 [s2 [Hi [_ He]]]].
  exists o2, s2. auto.
Defined.

Lemma merge_import_keeps_fields_witness :
  let s := Examples.store_of [Examples.named_existing] in
  healthy s = true
  /\ Lodash.merge Examples.named_existing Examples.index_incoming
     = Some Examples.index_merged
  /\ exists s' fields,
      import (createMergeImporter query) Examples.index_incoming s
        = (Returned tt, s')
      /\ Examples.index_merged = JObj fields
      /\ Json.lookup "b" fields = Some (JNum 1)
      /\ Json.lookup "1" fields <> None
      /\ List.filter (fun k => existsb (String.eqb k) ["key"; "b"]%string)
           (Json.names fields) = ["key"; "b"]%string
      /\ Json.ordered_names (Json.names fields) = true.
Proof.
  intros s. split; [reflexivity|]. split; [reflexivity|].
  destruct (@merge_import_keeps_fields s
              [("key", JStr "a"); ("b", JNum 1)]
              [("1", JNum 2); ("key", JStr "a")]
              Examples.index_merged eq_refl eq_refl eq_refl)
    as [s' [fields [Hi [_ [Hm [Hn [Hk [Hord Ho]]]]]]]].
  exists s', fields. split; [exact Hi|]. split; [exact Hm|].
  split; [exact (Hk "b"%string eq_refl)|].
  split; [apply Hn; right; discriminate|].
  split; [exact Hord | exact (Ho eq_refl)].
Defined.

Lemma restore_empty_array_witness :
  In "merge"%string ["replace"; "merge"; "keep"]%string
  /\ configurationRestore query (fun _ => inr (JArr [])) "[]"
       (Some "merge"%string) (Examples.store_of [Examples.dup_first])
     = (Returned (Examples.summary 0 "merge"),
        Examples.store_of [Examples.dup_first]).
Proof.
  assert (Hin : In "merge"%string ["replace"; "merge"; "keep"]%string)
    by (right; left; reflexivity).
  split; [exact Hin|].
  exact (@restore_empty_array state query (fun _ => inr (JArr [])) "[]"
           "merge" (Examples.store_of [Examples.dup_first]) eq_refl Hin).
Defined.
